(** * TextComparator: the spoken-text alignment and scoring engine

    Shallow embedding of [class TextComparator] of
    [frontend/js/mobile-menu.js] (normalize, tokenize, levenshteinDistance,
    similarity, compare) and the properties of its comparison result.

    - A JavaScript string is the list of its UTF-16 code units.
    - Array indices, string lengths, the cells of the edit-distance table and
      the four counters are integers far below 2^53; they are [nat].
    - The fractional Numbers (similarity scores, thresholds, the accuracy
      expression) go through the interface [JSNumber], which has two
      instances: [Exact] (rationals, every operation exact) and [Binary64]
      (IEEE 754 double precision, what a JavaScript engine computes).
      Structural properties are proved for every instance; properties that
      need the laws of arithmetic are proved for [Exact]; [Binary64] is used
      to evaluate the code on concrete inputs.

    The rest of the speech practice code of the same file is embedded as
    well: [class SpeechRecognitionPractice] as a state machine over its
    method calls and the events of the recogniser, with the calls it makes
    to the outside recorded in order, and [SearchUtils] ([debounce] over the
    table of its pending timers, and the listener of [setupSearch]). *)

From Stdlib Require Import ZArith QArith Qround Lqa Lia.
From Stdlib Require Import PrimFloat SpecFloat FloatOps.
From Stdlib Require Import Ascii String.
From stdpp Require Import base option list gmap.

Set Default Proof Using "Type".

(** ** JavaScript Numbers *)

Declare Scope js_scope.
Delimit Scope js_scope with J.

Class JSNumber (num : Type) := {
  of_nat : nat -> num;            (* an integer literal or integer value *)
  nsub : num -> num -> num;       (* a - b *)
  nmul : num -> num -> num;       (* a * b *)
  ndiv : num -> num -> num;       (* a / b *)
  nlt : num -> num -> bool;       (* a < b *)
  nle : num -> num -> bool;       (* a <= b *)
  Math_round : num -> num;        (* Math.round(a) *)
  lit_0_02 : num;                 (* the literal 0.02 *)
  lit_0_5 : num;                  (* the literal 0.5 *)
  lit_0_70 : num;                 (* the literal 0.70 *)
  lit_0_9 : num                   (* the literal 0.9 *)
}.

Infix "-" := nsub : js_scope.
Infix "*" := nmul : js_scope.
Infix "/" := ndiv : js_scope.
Notation "a <? b" := (nlt a b) : js_scope.
Notation "a >? b" := (nlt b a) : js_scope.
Notation "a >=? b" := (nle b a) : js_scope.

(** Exact arithmetic on rationals. [Math.round] rounds to the nearest integer,
    a half towards plus infinity. *)
Definition Qlt_bool (a b : Q) : bool := negb (Qle_bool b a).

Definition Qround_half_up (a : Q) : Q := inject_Z (Qfloor (a + (1 # 2))).

#[export] Instance Exact : JSNumber Q := {|
  of_nat n := inject_Z (Z.of_nat n);
  nsub := Qminus;
  nmul := Qmult;
  ndiv := Qdiv;
  nlt := Qlt_bool;
  nle := Qle_bool;
  Math_round := Qround_half_up;
  lit_0_02 := 2 # 100;
  lit_0_5 := 5 # 10;
  lit_0_70 := 7 # 10;
  lit_0_9 := 9 # 10
|}.

(** IEEE 754 binary64. An integer is converted by rounding to nearest even
    (exact below 2^53); a decimal literal denotes the double nearest to it,
    which is the correctly rounded quotient of two small integers. *)
Definition f64_of_Z (z : Z) : float := SF2Prim (binary_normalize prec emax z 0 false).

(** [Math.round] on a double: the value is [m * 2^e]; with [e >= 0] it is an
    integer already, otherwise [floor (m / 2^(-e) + 1/2)] is computed on
    integers.  Zeros, infinities and NaN are returned unchanged; the sign of
    a zero result (for an argument in [-0.5, 0)) is not kept. *)
Definition f64_round (x : float) : float :=
  match Prim2SF x with
  | S754_finite s m e =>
      if (0 <=? e)%Z then x
      else
        let k := Z.pow 2 (- e) in
        let sm := if s then Z.neg m else Z.pos m in
        f64_of_Z (Z.div (2 * sm + k) (2 * k))
  | _ => x
  end.

#[export] Instance Binary64 : JSNumber float := {|
  of_nat n := f64_of_Z (Z.of_nat n);
  nsub := PrimFloat.sub;
  nmul := PrimFloat.mul;
  ndiv := PrimFloat.div;
  nlt := PrimFloat.ltb;
  nle := PrimFloat.leb;
  Math_round := f64_round;
  lit_0_02 := PrimFloat.div (f64_of_Z 2) (f64_of_Z 100);
  lit_0_5 := PrimFloat.div (f64_of_Z 5) (f64_of_Z 10);
  lit_0_70 := PrimFloat.div (f64_of_Z 70) (f64_of_Z 100);
  lit_0_9 := PrimFloat.div (f64_of_Z 9) (f64_of_Z 10)
|}.

(** ** JavaScript strings *)

(** A string is the sequence of its UTF-16 code units; [length] counts them
    and [s[i]] reads one, as in the source. *)
Abbreviation jsstring := (list N).

(** A string literal of ASCII characters. *)
Definition js (s : string) : jsstring := map N_of_ascii (list_ascii_of_string s).

Definition SPACE : N := 32.

(** The punctuation class of [normalize], by code unit: full stop, comma,
    exclamation and question mark, semicolon, colon, apostrophe, quotation
    mark, and the round, square and curly brackets. *)
Definition punctuation : list N :=
  [46; 44; 33; 63; 59; 58; 39; 34; 40; 41; 91; 93; 123; 125]%N.

Definition is_punctuation (c : N) : bool := bool_decide (c ∈ punctuation).

(** The class [\s]: WhiteSpace and LineTerminator code points, which is also
    what [trim] strips. *)
Definition is_whitespace (c : N) : bool :=
  bool_decide (c ∈ [9; 10; 11; 12; 13; 32; 160; 5760; 8232; 8233; 8239; 8287;
                    12288; 65279]%N)
  || ((8192 <=? c)%N && (c <=? 8202)%N).

(** [s.replace(/\s+/g, ' ')]: every maximal run of whitespace becomes one
    space; [in_run] says that the previous code unit was whitespace. *)
Fixpoint replace_whitespace_runs (in_run : bool) (s : jsstring) : jsstring :=
  match s with
  | [] => []
  | c :: s' =>
      if is_whitespace c then
        if in_run then replace_whitespace_runs true s'
        else SPACE :: replace_whitespace_runs true s'
      else c :: replace_whitespace_runs false s'
  end.

Fixpoint trim_start (s : jsstring) : jsstring :=
  match s with
  | c :: s' => if is_whitespace c then trim_start s' else s
  | [] => []
  end.

Definition trim (s : jsstring) : jsstring :=
  reverse (trim_start (reverse (trim_start s))).

(** [s.split(sep)] for a one-unit separator; the empty string splits into
    one empty piece. *)
Fixpoint split (sep : N) (s : jsstring) : list jsstring :=
  match s with
  | [] => [[]]
  | c :: s' =>
      if (c =? sep)%N then [] :: split sep s'
      else match split sep s' with
           | w :: ws => (c :: w) :: ws
           | [] => [[c]]
           end
  end.

Section TextComparator.
(** [String.prototype.toLowerCase] is the engine's Unicode case mapping; it
    is not code of the repository and is taken as a parameter. *)
Variable toLowerCase : jsstring -> jsstring.

Definition normalize (text : jsstring) : jsstring :=
  trim
    (replace_whitespace_runs false
       (filter (λ c, is_punctuation c = false) (toLowerCase text))).

Definition tokenize (text : jsstring) : list jsstring :=
  filter (λ word, 0 < length word) (split SPACE (normalize text)).

End TextComparator.

(** ASCII lower-casing, which is what [toLowerCase] does on ASCII text. *)
Definition ascii_toLowerCase (s : jsstring) : jsstring :=
  map (λ c, if (65 <=? c)%N && (c <=? 90)%N then (c + 32)%N else c) s.

(** ** levenshteinDistance *)

(** The table [dp] is an array of [m + 1] rows of [n + 1] cells. *)
Definition dp_get (dp : list (list nat)) (i j : nat) : nat :=
  default 0 (dp !! i ≫= (.!! j)).

(** [dp[i][j] = v] *)
Definition dp_set (dp : list (list nat)) (i j v : nat) : list (list nat) :=
  alter (<[j := v]>) i dp.

Definition Math_min3 (a b c : nat) : nat := Nat.min a (Nat.min b c).

Section Levenshtein.
Variables str1 str2 : jsstring.

(** The body of the inner loop, at row [i] and column [j]. *)
Definition lev_cell (i : nat) (dp : list (list nat)) (j : nat) : list (list nat) :=
  if bool_decide (str1 !! (i - 1) = str2 !! (j - 1)) then
    dp_set dp i j (dp_get dp (i - 1) (j - 1))
  else
    dp_set dp i j
      (1 + Math_min3 (dp_get dp (i - 1) j) (dp_get dp i (j - 1))
                     (dp_get dp (i - 1) (j - 1))).

Definition lev_row (n : nat) (dp : list (list nat)) (i : nat) : list (list nat) :=
  foldl (lev_cell i) dp (seq 1 n).

Definition lev_init (m n : nat) : list (list nat) :=
  let dp := replicate (m + 1) (replicate (n + 1) 0) in
  let dp := foldl (λ dp i, dp_set dp i 0 i) dp (seq 0 (m + 1)) in
  foldl (λ dp j, dp_set dp 0 j j) dp (seq 0 (n + 1)).

Definition lev_table : list (list nat) :=
  let m := length str1 in
  let n := length str2 in
  foldl (lev_row n) (lev_init m n) (seq 1 m).

Definition levenshteinDistance : nat :=
  dp_get lev_table (length str1) (length str2).

(** The classic recurrence of the unit-cost edit distance between the
    prefix of length [i] of [str1] and the prefix of length [j] of [str2]:
    the cheapest of a deletion, an insertion and a substitution (free when
    the two last characters agree). *)
Fixpoint editDistance (i : nat) : nat -> nat :=
  match i with
  | 0 => λ j, j
  | S i' =>
      fix row (j : nat) : nat :=
        match j with
        | 0 => S i'
        | S j' =>
            Math_min3 (editDistance i' (S j') + 1)
                      (row j' + 1)
                      (editDistance i' j' +
                         (if bool_decide (str1 !! i' = str2 !! j') then 0 else 1))
        end
  end.
End Levenshtein.

(** ** similarity and compare *)

Inductive Status := correct | incorrect | missed.

#[export] Instance Status_eq_dec : EqDecision Status.
Proof. solve_decision. Defined.

Record WordResult (num : Type) := mkWordResult {
  wr_original : jsstring;
  wr_spoken : jsstring;
  wr_status : Status;
  wr_similarity : num
}.
Arguments mkWordResult {num}.
Arguments wr_original {num}.
Arguments wr_spoken {num}.
Arguments wr_status {num}.
Arguments wr_similarity {num}.

Record Results (num : Type) := mkResults {
  originalWords : list jsstring;
  spokenWords : list jsstring;
  wordResults : list (WordResult num);
  correctCount : nat;
  incorrectCount : nat;
  missedCount : nat;
  extraCount : nat;
  accuracy : num
}.
Arguments mkResults {num}.
Arguments originalWords {num}.
Arguments spokenWords {num}.
Arguments wordResults {num}.
Arguments correctCount {num}.
Arguments incorrectCount {num}.
Arguments missedCount {num}.
Arguments extraCount {num}.
Arguments accuracy {num}.

(** The running best candidate of one reference position:
    [bestMatch] ([null] is [None]), [bestSimilarity], [bestIndex]. *)
Record Best (num : Type) := mkBest {
  bestMatch : option jsstring;
  bestSimilarity : num;
  bestIndex : Z
}.
Arguments mkBest {num}.
Arguments bestMatch {num}.
Arguments bestSimilarity {num}.
Arguments bestIndex {num}.

(** The state of the outer loop: the result object under construction and
    the set [usedSpokenIndices]. *)
Record LoopState (num : Type) := mkLoopState {
  results : Results num;
  usedSpokenIndices : gset Z
}.
Arguments mkLoopState {num}.
Arguments results {num}.
Arguments usedSpokenIndices {num}.

(** [bestMatch && ...]: [null] and the empty string are falsy. *)
Definition truthy (s : option jsstring) : bool :=
  match s with
  | Some (_ :: _) => true
  | _ => false
  end.

Section Compare.
Context {num : Type} {JN : JSNumber num}.
Variable toLowerCase : jsstring -> jsstring.

Local Open Scope js_scope.

Definition similarity (word1 word2 : jsstring) : num :=
  let maxLen := Nat.max (length word1) (length word2) in
  if Nat.eqb maxLen 0 then of_nat 1
  else
    let distance := levenshteinDistance word1 word2 in
    of_nat 1 - (of_nat distance / of_nat maxLen).

(** [1 - (Math.abs(i - j) * 0.02)] *)
Definition positionBonus (i j : nat) : num :=
  of_nat 1 - (of_nat (Z.abs_nat (Z.of_nat i - Z.of_nat j)) * lit_0_02).

(** [sim * positionBonus] *)
Definition adjustedSim (originalWord spokenWord : jsstring) (i j : nat) : num :=
  similarity originalWord spokenWord * positionBonus i j.

Section Iteration.
(** One iteration of the outer loop, at reference position [i]. *)
Variable spoken : list jsstring.
Variable used : gset Z.
Variable i : nat.
Variable originalWord : jsstring.

(** [Math.max(0, i - 5)]; the subtraction on [nat] stops at 0, where the
    source's maximum clamps it. *)
Definition searchStart : nat := Nat.max 0 (i - 5).
Definition searchEnd : nat := Nat.min (length spoken) (i + 10).

(** The body of the window loop (lines 405-420). An index [j] of the
    window is below [spoken.length], so the lookup succeeds. *)
Definition window_body (b : Best num) (j : nat) : Best num :=
  if bool_decide (Z.of_nat j ∈ used) then b
  else
    match spoken !! j with
    | None => b
    | Some spokenWord =>
        let adjusted := adjustedSim originalWord spokenWord i j in
        if adjusted >? bestSimilarity b then
          mkBest (Some spokenWord) adjusted (Z.of_nat j)
        else b
    end.

Definition window_search : Best num :=
  foldl window_body (mkBest None (of_nat 0) (-1))
        (seq searchStart (searchEnd - searchStart)).

(** The loop of lines 424-435 over the indices [js]; it stops at the
    first exact match ([break]). *)
Fixpoint exact_scan (js : list nat) (b : Best num) : Best num :=
  match js with
  | [] => b
  | j :: js' =>
      if bool_decide (Z.of_nat j ∈ used) then exact_scan js' b
      else if ((searchStart <=? j) && (j <? searchEnd))%nat then exact_scan js' b
      else
        match spoken !! j with
        | Some spokenWord =>
            if bool_decide (spokenWord = originalWord) then
              mkBest (Some spokenWord) (of_nat 1) (Z.of_nat j)
            else exact_scan js' b
        | None => exact_scan js' b
        end
  end.

(** Lines 422-436. *)
Definition exact_match_anywhere (b : Best num) : Best num :=
  if bestSimilarity b <? lit_0_9 then exact_scan (seq 0 (length spoken)) b
  else b.

Definition find_best : Best num := exact_match_anywhere window_search.
End Iteration.

Definition push_wordResult (r : Results num) (w : WordResult num) : Results num :=
  mkResults (originalWords r) (spokenWords r) (wordResults r ++ [w])
            (correctCount r) (incorrectCount r) (missedCount r)
            (extraCount r) (accuracy r).

Definition incr_correctCount (r : Results num) : Results num :=
  mkResults (originalWords r) (spokenWords r) (wordResults r)
            (correctCount r + 1) (incorrectCount r) (missedCount r)
            (extraCount r) (accuracy r).

Definition incr_incorrectCount (r : Results num) : Results num :=
  mkResults (originalWords r) (spokenWords r) (wordResults r)
            (correctCount r) (incorrectCount r + 1) (missedCount r)
            (extraCount r) (accuracy r).

Definition incr_missedCount (r : Results num) : Results num :=
  mkResults (originalWords r) (spokenWords r) (wordResults r)
            (correctCount r) (incorrectCount r) (missedCount r + 1)
            (extraCount r) (accuracy r).

Definition set_extraCount (r : Results num) (n : nat) : Results num :=
  mkResults (originalWords r) (spokenWords r) (wordResults r)
            (correctCount r) (incorrectCount r) (missedCount r)
            n (accuracy r).

Definition set_accuracy (r : Results num) (a : num) : Results num :=
  mkResults (originalWords r) (spokenWords r) (wordResults r)
            (correctCount r) (incorrectCount r) (missedCount r)
            (extraCount r) a.

(** Lines 438-466: the classification of the winning candidate [b] of the
    reference word [originalWord]. *)
Definition classify (similarityThreshold : num) (originalWord : jsstring)
    (b : Best num) (st : LoopState num) : LoopState num :=
  if truthy (bestMatch b) && (bestSimilarity b >=? similarityThreshold) then
    mkLoopState
      (incr_correctCount
         (push_wordResult (results st)
            (mkWordResult originalWord (default [] (bestMatch b)) correct
                          (bestSimilarity b))))
      ({[ bestIndex b ]} ∪ usedSpokenIndices st)
  else if truthy (bestMatch b) && (bestSimilarity b >=? lit_0_5) then
    mkLoopState
      (incr_incorrectCount
         (push_wordResult (results st)
            (mkWordResult originalWord (default [] (bestMatch b)) incorrect
                          (bestSimilarity b))))
      ({[ bestIndex b ]} ∪ usedSpokenIndices st)
  else
    mkLoopState
      (incr_missedCount
         (push_wordResult (results st)
            (mkWordResult originalWord [] missed (of_nat 0))))
      (usedSpokenIndices st).

(** The body of the outer loop (lines 395-467). *)
Definition compare_body (similarityThreshold : num) (st : LoopState num)
    (i : nat) : LoopState num :=
  match originalWords (results st) !! i with
  | None => st
  | Some originalWord =>
      classify similarityThreshold originalWord
        (find_best (spokenWords (results st)) (usedSpokenIndices st) i originalWord)
        st
  end.

Definition compare_init (originalText spokenText : jsstring) : LoopState num :=
  mkLoopState
    (mkResults (tokenize toLowerCase originalText)
               (tokenize toLowerCase spokenText) [] 0 0 0 0 (of_nat 0))
    ∅.

(** The state after the first [k] iterations of the outer loop. *)
Definition compare_loop (originalText spokenText : jsstring)
    (similarityThreshold : num) (k : nat) : LoopState num :=
  foldl (compare_body similarityThreshold)
        (compare_init originalText spokenText) (seq 0 k).

(** Lines 469-477. *)
Definition compare_finish (st : LoopState num) : Results num :=
  let r := results st in
  let r :=
    set_extraCount r
      (Z.to_nat (Z.max 0 (Z.of_nat (length (spokenWords r))
                          - Z.of_nat (size (usedSpokenIndices st))))) in
  if (0 <? length (originalWords r))%nat then
    set_accuracy r
      (Math_round
         ((of_nat (correctCount r) / of_nat (length (originalWords r)))
          * of_nat 100))
  else r.

Definition compare (originalText spokenText : jsstring)
    (similarityThreshold : num) : Results num :=
  compare_finish
    (compare_loop originalText spokenText similarityThreshold
       (length (tokenize toLowerCase originalText))).

(** [compare(originalText, spokenText)] with the default threshold. *)
Definition compare_default (originalText spokenText : jsstring) : Results num :=
  compare originalText spokenText lit_0_70.
End Compare.

(** ** Predicates used in the statements *)

(** The table has [m + 1] rows of [n + 1] cells. *)
Definition dp_shape (m n : nat) (dp : list (list nat)) : Prop :=
  length dp = m + 1 ∧ ∀ i row, dp !! i = Some row → length row = n + 1.

(** The cells already written when the loops are about to write the cell
    [(i, j)]: row 0, column 0, the rows before [i], and row [i] up to column
    [j]. *)
Definition filled (i j i' j' : nat) : Prop :=
  i' = 0 ∨ j' = 0 ∨ i' < i ∨ (i' = i ∧ j' < j).

(** The invariant of the two nested loops of [levenshteinDistance]: every
    cell already written holds the edit distance of the two prefixes. *)
Definition table_inv (str1 str2 : jsstring) (dp : list (list nat)) (i j : nat) : Prop :=
  dp_shape (length str1) (length str2) dp ∧
  ∀ i' j', i' ≤ length str1 → j' ≤ length str2 → filled i j i' j' →
           dp_get dp i' j' = editDistance str1 str2 i' j'.

Section Predicates.
Context {num : Type} {JN : JSNumber num}.
Variable toLowerCase : jsstring -> jsstring.
Implicit Types (st : LoopState num) (b : Best num) (spoken : list jsstring)
  (used : gset Z).

(** A candidate that was kept is an unconsumed index of the spoken
    sequence, and [bestMatch] is the token at that index. *)
Definition best_wf spoken used b : Prop :=
  match bestMatch b with
  | None => bestIndex b = (-1)%Z
  | Some w =>
      ∃ j : nat, bestIndex b = Z.of_nat j ∧ (Z.of_nat j ∉ used) ∧ spoken !! j = Some w
  end.

(** The invariant of the outer loop after [k] iterations. *)
Record loop_inv (original spokenText : jsstring) (k : nat) st : Prop := {
  inv_originalWords : originalWords (results st) = tokenize toLowerCase original;
  inv_spokenWords : spokenWords (results st) = tokenize toLowerCase spokenText;
  inv_records :
    wr_original <$> wordResults (results st) = take k (tokenize toLowerCase original);
  inv_counts :
    correctCount (results st) + incorrectCount (results st)
    + missedCount (results st) = k;
  inv_correct :
    correctCount (results st)
    = length (filter (λ r, wr_status r = correct) (wordResults (results st)));
  inv_incorrect :
    incorrectCount (results st)
    = length (filter (λ r, wr_status r = incorrect) (wordResults (results st)));
  inv_missed :
    missedCount (results st)
    = length (filter (λ r, wr_status r = missed) (wordResults (results st)));
  inv_size :
    size (usedSpokenIndices st) = correctCount (results st) + incorrectCount (results st);
  inv_range :
    ∀ z, z ∈ usedSpokenIndices st →
         (0 ≤ z < Z.of_nat (length (tokenize toLowerCase spokenText)))%Z;
  inv_extraCount : extraCount (results st) = 0;
  inv_accuracy : accuracy (results st) = of_nat 0
}.



(** An index the fallback scan may take: unconsumed, outside the window,
    holding exactly the reference token. *)
Definition exact_candidate spoken used (i : nat) (w : jsstring) (j : nat) : Prop :=
  (Z.of_nat j ∉ used) ∧ ¬ (searchStart i ≤ j < searchEnd spoken i) ∧
  spoken !! j = Some w.

(** The record that [classify] appends. *)
Definition record_of (thr : num) (w : jsstring) b : WordResult num :=
  if truthy (bestMatch b) && nle thr (bestSimilarity b) then
    mkWordResult w (default [] (bestMatch b)) correct (bestSimilarity b)
  else if truthy (bestMatch b) && nle lit_0_5 (bestSimilarity b) then
    mkWordResult w (default [] (bestMatch b)) incorrect (bestSimilarity b)
  else mkWordResult w [] missed (of_nat 0).

(** 1 when the record has status [s], else 0. *)
Definition status_count (s : Status) (r : WordResult num) : nat :=
  if decide (wr_status r = s) then 1 else 0.

(** Whether [classify] consumes the index of its candidate. *)
Definition consumes (thr : num) b : bool :=
  truthy (bestMatch b) && (nle thr (bestSimilarity b) || nle lit_0_5 (bestSimilarity b)).

(** The threshold policy with the fixed bound 0.50 for [missed], whatever
    the threshold: a score equal to the threshold is [correct], a score
    from 0.50 up to the threshold is [incorrect], both consuming the index;
    a score below 0.50, or no candidate, is [missed] and consumes nothing. *)
Definition fixed_missed_bound (thr : num) (w : jsstring) b st : Prop :=
  let st' := classify thr w b st in
  let r := record_of thr w b in
  (truthy (bestMatch b) = true →
   nle thr (bestSimilarity b) = true → nle (bestSimilarity b) thr = true →
   wr_status r = correct ∧
   usedSpokenIndices st' = {[ bestIndex b ]} ∪ usedSpokenIndices st) ∧
  (truthy (bestMatch b) = true →
   nle lit_0_5 (bestSimilarity b) = true → nlt (bestSimilarity b) thr = true →
   wr_status r = incorrect ∧
   usedSpokenIndices st' = {[ bestIndex b ]} ∪ usedSpokenIndices st) ∧
  (nlt (bestSimilarity b) lit_0_5 = true ∨ bestMatch b = None →
   wr_status r = missed ∧ wr_spoken r = [] ∧
   usedSpokenIndices st' = usedSpokenIndices st).


(** An empty reference gives no record, accuracy 0 and four counters at 0. *)
Definition all_zero (r : Results num) : Prop :=
  wordResults r = [] ∧ accuracy r = of_nat 0 ∧ correctCount r = 0 ∧
  incorrectCount r = 0 ∧ missedCount r = 0 ∧ extraCount r = 0.
End Predicates.



(** The text of [n] words [a]. *)
Definition repeated_word (n : nat) : jsstring := concat (replicate n (js "a ")).

(** [round (100 * c / n)] on exact rationals, a half rounded up. *)
Definition rounded_percentage (c n : nat) : Z :=
  Qfloor (inject_Z (100 * Z.of_nat c) / inject_Z (Z.of_nat n) + (1 # 2)).

(** The accuracy the specification gives for [c] correct words out of [n]. *)
Definition spec_accuracy {num : Type} {JN : JSNumber num} (c n : nat) : num :=
  if Nat.eqb n 0 then of_nat 0 else of_nat (Z.to_nat (rounded_percentage c n)).

(** ** Normal forms of texts *)

(** [ws.join(sep)] for a one-unit separator. *)
Fixpoint join (sep : N) (ws : list jsstring) : jsstring :=
  match ws with
  | [] => []
  | [w] => w
  | w :: ws' => w ++ sep :: join sep ws'
  end.

(** Spaces are single and only between other code units; [after_space] says
    that the previous code unit was a space (or that the string starts
    here). *)
Fixpoint single_spaced (after_space : bool) (s : jsstring) : bool :=
  match s with
  | [] => negb after_space
  | c :: s' =>
      if (c =? SPACE)%N then negb after_space && single_spaced true s'
      else single_spaced false s'
  end.

(** The same without the condition on the end of the string. *)
Fixpoint no_double_space (after_space : bool) (s : jsstring) : bool :=
  match s with
  | [] => true
  | c :: s' =>
      if (c =? SPACE)%N then negb after_space && no_double_space true s'
      else no_double_space false s'
  end.

(** A code unit of a token: neither whitespace nor punctuation. *)
Definition word_unit (c : N) : Prop := is_whitespace c = false ∧ is_punctuation c = false.

(** ** SpeechRecognitionPractice *)

(** A registered callback: a function value, known by an identifier. *)
Definition Callback : Type := nat.

(** One entry of [event.results]: [results[i][0].transcript] and
    [results[i].isFinal]. *)
Record SpeechRecognitionResult := mkSpeechRecognitionResult {
  sr_transcript : jsstring;
  isFinal : bool
}.

(** A [result] event of the recogniser. *)
Record SpeechRecognitionEvent := mkSpeechRecognitionEvent {
  resultIndex : nat;
  event_results : list SpeechRecognitionResult
}.

(** The object handed to the result callback. *)
Record ResultUpdate := mkResultUpdate {
  final : jsstring;
  interim : jsstring;
  combined : jsstring
}.

#[export] Instance ResultUpdate_eq_dec : EqDecision ResultUpdate.
Proof. solve_decision. Defined.

(** What a method or a handler does to the outside: the calls of the
    recogniser, of the console and of the registered callbacks, in order. *)
Inductive Effect :=
| recognition_start
| recognition_stop
| console_error
| result_callback (f : Callback) (u : ResultUpdate)
| error_callback (f : Callback) (error : jsstring)
| end_callback (f : Callback) (t : jsstring).

#[export] Instance Effect_eq_dec : EqDecision Effect.
Proof. solve_decision. Defined.

(** The fields of the object. [recognition] says whether [this.recognition]
    holds a recogniser ([true]) or [null]; a callback field is [None] for
    [null] (or any falsy value). *)
Record SpeechRecognitionPractice := mkSpeechRecognitionPractice {
  recognition : bool;
  isRecording : bool;
  transcript : jsstring;
  onResultCallback : option Callback;
  onErrorCallback : option Callback;
  onEndCallback : option Callback;
  interimTranscript : jsstring
}.

(** The result of a call that may throw. *)
Inductive Outcome (A : Type) :=
| Returns (a : A)
| Throws (message : string).
Arguments Returns {A}.
Arguments Throws {A}.

(** Lines 182-242; [supported] says whether the browser has
    [SpeechRecognition] or [webkitSpeechRecognition]. *)
Definition init (p : SpeechRecognitionPractice) (supported : bool)
    : bool * SpeechRecognitionPractice * list Effect :=
  if negb supported then (false, p, [console_error])
  else
    (true,
     mkSpeechRecognitionPractice true (isRecording p) (transcript p)
       (onResultCallback p) (onErrorCallback p) (onEndCallback p)
       (interimTranscript p),
     []).

(** Lines 167-177. *)
Definition constructor (supported : bool) : SpeechRecognitionPractice * list Effect :=
  let '(_, p, e) :=
    init (mkSpeechRecognitionPractice false false [] None None None []) supported in
  (p, e).

(** The body of the loop of lines 204-211, on the pair
    [(interimTranscript, finalTranscript)]. *)
Definition onresult_body (acc : jsstring * jsstring) (r : SpeechRecognitionResult)
    : jsstring * jsstring :=
  if isFinal r then (acc.1, acc.2 ++ (sr_transcript r ++ [SPACE]))
  else (acc.1 ++ sr_transcript r, acc.2).

(** Lines 200-225: the [onresult] handler. *)
Definition onresult (p : SpeechRecognitionPractice) (event : SpeechRecognitionEvent)
    : SpeechRecognitionPractice * list Effect :=
  let acc :=
    foldl onresult_body ([], []) (drop (resultIndex event) (event_results event)) in
  let transcript' :=
    if bool_decide (acc.2 ≠ []) then transcript p ++ acc.2 else transcript p in
  let p' :=
    mkSpeechRecognitionPractice (recognition p) (isRecording p) transcript'
      (onResultCallback p) (onErrorCallback p) (onEndCallback p) acc.1 in
  (p',
   match onResultCallback p' with
   | Some f =>
       [result_callback f
          (mkResultUpdate (trim (transcript p')) (interimTranscript p')
             (trim (transcript p' ++ interimTranscript p')))]
   | None => []
   end).

(** Lines 227-232. *)
Definition onerror (p : SpeechRecognitionPractice) (error : jsstring)
    : SpeechRecognitionPractice * list Effect :=
  (p, console_error ::
      match onErrorCallback p with
      | Some f => [error_callback f error]
      | None => []
      end).

(** Lines 234-239. *)
Definition onend (p : SpeechRecognitionPractice)
    : SpeechRecognitionPractice * list Effect :=
  let p' :=
    mkSpeechRecognitionPractice (recognition p) false (transcript p)
      (onResultCallback p) (onErrorCallback p) (onEndCallback p)
      (interimTranscript p) in
  (p',
   match onEndCallback p' with
   | Some f => [end_callback f (trim (transcript p'))]
   | None => []
   end).

(** Lines 254-263; [granted] is the outcome of [getUserMedia]. *)
Definition requestMicrophonePermission (granted : bool) : bool * list Effect :=
  if granted then (true, []) else (false, [console_error]).

(** Lines 268-282. The first test reads a field that is written only by
    [init], and nothing is written before the permission request has
    settled, so the call is one step taken when the request settles. *)
Definition start (p : SpeechRecognitionPractice) (granted : bool)
    : Outcome unit * SpeechRecognitionPractice * list Effect :=
  if negb (recognition p) then
    (Throws "Speech Recognition not initialized", p, [])
  else
    let '(hasPermission, e) := requestMicrophonePermission granted in
    if negb hasPermission then (Throws "Microphone permission denied", p, e)
    else
      (Returns tt,
       mkSpeechRecognitionPractice (recognition p) true []
         (onResultCallback p) (onErrorCallback p) (onEndCallback p) [],
       e ++ [recognition_start]).

(** Lines 287-293. *)
Definition stop (p : SpeechRecognitionPractice)
    : jsstring * SpeechRecognitionPractice * list Effect :=
  let '(p', e) :=
    if recognition p && isRecording p then
      (mkSpeechRecognitionPractice (recognition p) false (transcript p)
         (onResultCallback p) (onErrorCallback p) (onEndCallback p)
         (interimTranscript p),
       [recognition_stop])
    else (p, []) in
  (trim (transcript p'), p', e).

(** Lines 298-314. *)
Definition onResult (p : SpeechRecognitionPractice) (callback : option Callback)
    : SpeechRecognitionPractice :=
  mkSpeechRecognitionPractice (recognition p) (isRecording p) (transcript p)
    callback (onErrorCallback p) (onEndCallback p) (interimTranscript p).

Definition onError (p : SpeechRecognitionPractice) (callback : option Callback)
    : SpeechRecognitionPractice :=
  mkSpeechRecognitionPractice (recognition p) (isRecording p) (transcript p)
    (onResultCallback p) callback (onEndCallback p) (interimTranscript p).

Definition onEnd (p : SpeechRecognitionPractice) (callback : option Callback)
    : SpeechRecognitionPractice :=
  mkSpeechRecognitionPractice (recognition p) (isRecording p) (transcript p)
    (onResultCallback p) (onErrorCallback p) callback (interimTranscript p).

(** What can happen to the object: a method is called, or the recogniser
    fires one of the three handlers that [init] installed on it. *)
Inductive Call :=
| call_start (granted : bool)
| call_stop
| call_onResult (callback : option Callback)
| call_onError (callback : option Callback)
| call_onEnd (callback : option Callback)
| fire_onresult (event : SpeechRecognitionEvent)
| fire_onerror (error : jsstring)
| fire_onend.

(** One call; a handler exists only on a recogniser. *)
Definition step (p : SpeechRecognitionPractice) (c : Call)
    : SpeechRecognitionPractice * list Effect :=
  match c with
  | call_start granted => let '(_, p', e) := start p granted in (p', e)
  | call_stop => let '(_, p', e) := stop p in (p', e)
  | call_onResult callback => (onResult p callback, [])
  | call_onError callback => (onError p callback, [])
  | call_onEnd callback => (onEnd p callback, [])
  | fire_onresult event => if recognition p then onresult p event else (p, [])
  | fire_onerror error => if recognition p then onerror p error else (p, [])
  | fire_onend => if recognition p then onend p else (p, [])
  end.

(** A sequence of calls, with the effects in order. *)
Definition run (pe : SpeechRecognitionPractice * list Effect) (cs : list Call)
    : SpeechRecognitionPractice * list Effect :=
  foldl (λ pe c, let '(p', e) := step pe.1 c in (p', pe.2 ++ e)) pe cs.

(** The text of the final results of an event, each followed by a space. *)
Definition final_text (event : SpeechRecognitionEvent) : jsstring :=
  concat ((λ r, sr_transcript r ++ [SPACE])
            <$> filter (λ r, isFinal r = true)
                  (drop (resultIndex event) (event_results event))).

(** The text of the results of an event that are not final. *)
Definition interim_text (event : SpeechRecognitionEvent) : jsstring :=
  concat (sr_transcript
            <$> filter (λ r, isFinal r = false)
                  (drop (resultIndex event) (event_results event))).

(** The final text of the result events of a sequence of calls. *)
Definition spoken_text (cs : list Call) : jsstring :=
  concat ((λ c, match c with fire_onresult event => final_text event | _ => [] end)
            <$> cs).

(** How often the effect [x] occurs. *)
Definition calls (x : Effect) (es : list Effect) : nat :=
  length (filter (λ e, e = x) es).

(** A call of [start] with the permission granted. *)
Definition restarts (c : Call) : bool :=
  match c with call_start true => true | _ => false end.

(** ** SearchUtils.setupSearch *)

(** Lines 559-563: what the listener of [setupSearch] passes to [callback]
    when the input holds [value]; [None] is [null]. *)
Definition setupSearch_value (value : jsstring) : option jsstring :=
  let value := trim value in
  if bool_decide (value = []) then None else Some value.

(** ** SearchUtils.debounce *)

Section Debounce.
(** The argument list of one call. *)
Variable Args : Type.

(** The state of one closure returned by [debounce(func, wait)]: the
    variable [timeout] ([None] is [undefined]); the timers set by the closure
    that have neither fired nor been cleared, each with the arguments that
    its [later] passes on; and the number of timers set so far, which gives
    the next timer its identifier. When a pending timer fires is up to the
    browser (not before [wait] milliseconds) and is not fixed here. *)
Record Debounce := mkDebounce {
  timeout : option nat;
  timers : gmap nat Args;
  timers_set : nat
}.

(** [clearTimeout(id)]; an identifier that is [undefined], or whose timer
    has fired or been cleared, changes nothing. *)
Definition clearTimeout (id : option nat) (ts : gmap nat Args) : gmap nat Args :=
  match id with
  | Some i => delete i ts
  | None => ts
  end.

(** Lines 536-543: one call of the debounced function. *)
Definition executedFunction (d : Debounce) (args : Args) : Debounce :=
  let ts := clearTimeout (timeout d) (timers d) in
  mkDebounce (Some (timers_set d)) (<[timers_set d := args]> ts) (S (timers_set d)).

(** Lines 537-540: the timer [id] fires and runs its [later]; the result
    holds the arguments of the call of [func], if there is one. *)
Definition later (d : Debounce) (id : nat) : Debounce * list Args :=
  match timers d !! id with
  | Some args =>
      (mkDebounce (timeout d) (clearTimeout (timeout d) (delete id (timers d)))
         (timers_set d),
       [args])
  | None => (d, [])
  end.

(** What happens to the closure: it is called, or one of the timers fires. *)
Inductive DebounceEvent :=
| called (args : Args)
| fired (id : nat).

Definition debounce_step (st : Debounce * list Args) (e : DebounceEvent)
    : Debounce * list Args :=
  match e with
  | called args => (executedFunction st.1 args, st.2)
  | fired id => ((later st.1 id).1, st.2 ++ (later st.1 id).2)
  end.

(** [debounce(func, wait)] followed by the events [es]: the state of the
    closure and the argument lists of the calls of [func], in order. *)
Definition debounce (es : list DebounceEvent) : Debounce * list Args :=
  foldl debounce_step (mkDebounce None ∅ 0, []) es.

(** The argument lists of the calls of the debounced function. *)
Definition called_with (es : list DebounceEvent) : list Args :=
  omap (λ e, match e with called args => Some args | fired _ => None end) es.

(** The invariant of the closure: no timer is pending, or exactly the one
    that [timeout] names, holding the arguments of the latest call; and what
    [func] has received is a subsequence of the earlier calls. *)
Definition debounce_inv (es : list DebounceEvent) (st : Debounce * list Args) : Prop :=
  (timers st.1 = ∅ ∧ st.2 `sublist_of` called_with es) ∨
  (∃ id args earlier,
     timeout st.1 = Some id ∧ timers st.1 = {[ id := args ]} ∧
     called_with es = earlier ++ [args] ∧ st.2 `sublist_of` earlier).
End Debounce.

Arguments mkDebounce {Args}.
Arguments timeout {Args}.
Arguments timers {Args}.
Arguments timers_set {Args}.
Arguments clearTimeout {Args}.
Arguments executedFunction {Args}.
Arguments later {Args}.
Arguments called {Args}.
Arguments fired {Args}.
Arguments debounce_step {Args}.
Arguments debounce {Args}.
Arguments called_with {Args}.
Arguments debounce_inv {Args}.

(** * Properties *)

(** ** The edit-distance table *)

Lemma dp_set_shape m n dp i j v : dp_shape m n dp → dp_shape m n (dp_set dp i j v).
Proof.
  intros [Hlen Hrows]. split.
  - unfold dp_set. by rewrite length_alter.
  - intros i' row. unfold dp_set.
    destruct (decide (i = i')) as [<-|Hne].
    + rewrite list_lookup_alter_eq.
      destruct (dp !! i) as [row'|] eqn:Hrow; simpl; [|done].
      intros [= <-]. rewrite length_insert. by apply (Hrows i).
    + rewrite list_lookup_alter_ne by done. apply Hrows.
Qed.

Lemma dp_get_set m n dp i j v i' j' :
  dp_shape m n dp → i ≤ m → j ≤ n →
  dp_get (dp_set dp i j v) i' j'
  = if decide (i = i' ∧ j = j') then v else dp_get dp i' j'.
Proof.
  intros [Hlen Hrows] Hi Hj. unfold dp_get, dp_set.
  destruct (decide (i = i')) as [<-|Hne].
  - rewrite list_lookup_alter_eq. destruct (lookup_lt_is_Some_2 dp i) as [row Hrow]; [lia|].
    rewrite Hrow. simpl. pose proof (Hrows _ _ Hrow) as Hl.
    destruct (decide (j = j')) as [<-|Hnj].
    + rewrite list_lookup_insert_eq by lia. by rewrite decide_True.
    + rewrite list_lookup_insert_ne by done. rewrite decide_False; [done|]. tauto.
  - rewrite list_lookup_alter_ne by done. rewrite decide_False; [done|]. tauto.
Qed.

Lemma replicate_shape m n : dp_shape m n (replicate (m + 1) (replicate (n + 1) 0)).
Proof.
  split; [by rewrite length_replicate|].
  intros i row [-> _]%lookup_replicate. by rewrite length_replicate.
Qed.

Lemma dp_get_replicate m n i j : dp_get (replicate (m + 1) (replicate (n + 1) 0)) i j = 0.
Proof.
  unfold dp_get. destruct (replicate (m + 1) _ !! i) as [row|] eqn:Hrow; [|done].
  apply lookup_replicate in Hrow as [-> _]. simpl.
  destruct (replicate (n + 1) 0 !! j) as [c|] eqn:Hc; [|done].
  by apply lookup_replicate in Hc as [-> _].
Qed.

(** The first column after the first initialisation loop. *)
Lemma init_column m n dp k :
  dp_shape m n dp → k ≤ m + 1 →
  let dp' := foldl (λ dp i, dp_set dp i 0 i) dp (seq 0 k) in
  dp_shape m n dp' ∧
  ∀ i j, dp_get dp' i j = if decide (i < k ∧ j = 0) then i else dp_get dp i j.
Proof.
  intros Hs. induction k as [|k IH]; intros Hk; cbv zeta.
  - split; [done|]. intros i j. case_decide; [lia|done].
  - rewrite seq_S, foldl_app. cbn [foldl].
    destruct IH as [Hs' Hget]; [lia|]. split; [by apply dp_set_shape|].
    intros i j. rewrite (dp_get_set m n) by (done || lia).
    rewrite Hget. repeat case_decide; try done; lia.
Qed.

Lemma init_row m n dp k :
  dp_shape m n dp → k ≤ n + 1 →
  let dp' := foldl (λ dp j, dp_set dp 0 j j) dp (seq 0 k) in
  dp_shape m n dp' ∧
  ∀ i j, dp_get dp' i j = if decide (i = 0 ∧ j < k) then j else dp_get dp i j.
Proof.
  intros Hs. induction k as [|k IH]; intros Hk; cbv zeta.
  - split; [done|]. intros i j. case_decide; [lia|done].
  - rewrite seq_S, foldl_app. cbn [foldl].
    destruct IH as [Hs' Hget]; [lia|]. split; [by apply dp_set_shape|].
    intros i j. rewrite (dp_get_set m n) by (done || lia).
    rewrite Hget. repeat case_decide; try done; lia.
Qed.

Section LevenshteinCorrect.
Variables str1 str2 : jsstring.
Local Notation "'D'" := (editDistance str1 str2).
Local Notation "'m'" := (length str1).
Local Notation "'n'" := (length str2).

Lemma editDistance_0_l j : D 0 j = j.
Proof. done. Qed.

Lemma editDistance_0_r i : D i 0 = i.
Proof. by destruct i. Qed.

Lemma editDistance_S i j :
  D (S i) (S j) =
  Math_min3 (D i (S j) + 1) (D (S i) j + 1)
            (D i j + (if bool_decide (str1 !! i = str2 !! j) then 0 else 1)).
Proof. done. Qed.

Lemma editDistance_step_r i j : D i (S j) ≤ D i j + 1.
Proof.
  destruct i as [|i]; [simpl; lia|].
  rewrite editDistance_S. unfold Math_min3. lia.
Qed.

Lemma editDistance_step_l i j : D (S i) j ≤ D i j + 1.
Proof.
  destruct j as [|j]; [rewrite !editDistance_0_r; lia|].
  rewrite editDistance_S. unfold Math_min3. lia.
Qed.

Lemma editDistance_back_r i j : D i j ≤ D i (S j) + 1.
Proof.
  revert j. induction i as [|i IH]; intros j; [simpl; lia|].
  rewrite (editDistance_S i j). unfold Math_min3.
  pose proof (editDistance_step_l i j). pose proof (IH j).
  destruct (bool_decide _); lia.
Qed.

Lemma editDistance_back_l i j : D i j ≤ D (S i) j + 1.
Proof.
  induction j as [|j IH]; [rewrite !editDistance_0_r; lia|].
  rewrite (editDistance_S i j). unfold Math_min3.
  pose proof (editDistance_step_r i j).
  destruct (bool_decide _); lia.
Qed.

(** The shortcut of the source: when the two characters agree the diagonal
    cell is the minimum. *)
Lemma editDistance_match i j :
  str1 !! i = str2 !! j → D (S i) (S j) = D i j.
Proof.
  intros Heq. rewrite editDistance_S, bool_decide_eq_true_2 by done.
  pose proof (editDistance_back_r i j). pose proof (editDistance_back_l i j).
  unfold Math_min3. lia.
Qed.

Lemma editDistance_mismatch i j :
  str1 !! i ≠ str2 !! j →
  D (S i) (S j) = 1 + Math_min3 (D i (S j)) (D (S i) j) (D i j).
Proof.
  intros Hne. rewrite editDistance_S, bool_decide_eq_false_2 by done.
  unfold Math_min3. lia.
Qed.

Lemma editDistance_le_max i j : D i j ≤ Nat.max i j.
Proof.
  revert j. induction i as [|i IH]; intros j; [simpl; lia|].
  destruct j as [|j]; [rewrite editDistance_0_r; lia|].
  rewrite editDistance_S. unfold Math_min3. pose proof (IH j).
  destruct (bool_decide _); lia.
Qed.

Lemma lev_init_inv : table_inv str1 str2 (lev_init m n) 1 1.
Proof.
  unfold lev_init.
  destruct (init_column m n _ (m + 1) (replicate_shape m n) (Nat.le_refl _)) as [Hs1 Hg1].
  destruct (init_row m n _ (n + 1) Hs1 (Nat.le_refl _)) as [Hs2 Hg2].
  split; [done|]. intros i' j' Hi Hj Hf.
  rewrite Hg2, Hg1, dp_get_replicate.
  unfold filled in Hf. repeat case_decide; try lia.
  - destruct i'; [done|lia].
  - destruct j'; [|lia]. by rewrite editDistance_0_r.
Qed.

Lemma lev_cell_inv dp i j :
  1 ≤ i ≤ m → 1 ≤ j ≤ n →
  table_inv str1 str2 dp i j → table_inv str1 str2 (lev_cell str1 str2 i dp j) i (S j).
Proof.
  intros Hi Hj [Hs Hget].
  destruct i as [|i]; [lia|]. destruct j as [|j]; [lia|].
  assert (Hd : dp_get dp i j = D i j) by (apply Hget; unfold filled; lia).
  assert (Hu : dp_get dp i (S j) = D i (S j)) by (apply Hget; unfold filled; lia).
  assert (Hl : dp_get dp (S i) j = D (S i) j) by (apply Hget; unfold filled; lia).
  unfold lev_cell. simpl. rewrite !Nat.sub_0_r.
  case_bool_decide as Hc.
  - split; [by apply dp_set_shape|]. intros i' j' Hi' Hj' Hf.
    rewrite (dp_get_set m n) by (done || lia).
    case_decide as Heq.
    + destruct Heq as [<- <-]. by rewrite Hd, editDistance_match.
    + apply Hget; [done..|]. unfold filled in *. lia.
  - split; [by apply dp_set_shape|]. intros i' j' Hi' Hj' Hf.
    rewrite (dp_get_set m n) by (done || lia).
    case_decide as Heq.
    + destruct Heq as [<- <-]. by rewrite Hd, Hu, Hl, editDistance_mismatch.
    + apply Hget; [done..|]. unfold filled in *. lia.
Qed.

Lemma lev_row_inv dp i :
  1 ≤ i ≤ m → table_inv str1 str2 dp i 1 →
  table_inv str1 str2 (lev_row str1 str2 n dp i) (S i) 1.
Proof.
  intros Hi Hinv.
  assert (Hk : ∀ k, k ≤ n → table_inv str1 str2 (foldl (lev_cell str1 str2 i) dp (seq 1 k)) i (S k)).
  { induction k as [|k IH]; intros Hk; [done|].
    rewrite seq_S, foldl_app. cbn [foldl]. apply lev_cell_inv; [done|lia|].
    apply IH. lia. }
  destruct (Hk n (Nat.le_refl _)) as [Hs Hget]. split; [done|].
  intros i' j' Hi' Hj' Hf. apply Hget; [done..|]. unfold filled in *. lia.
Qed.

Lemma lev_table_inv : table_inv str1 str2 (lev_table str1 str2) (S m) 1.
Proof.
  unfold lev_table.
  assert (Hk : ∀ k, k ≤ m →
    table_inv str1 str2 (foldl (lev_row str1 str2 n) (lev_init m n) (seq 1 k)) (S k) 1).
  { induction k as [|k IH]; intros Hk; [apply lev_init_inv|].
    rewrite seq_S, foldl_app. cbn [foldl]. apply lev_row_inv; [lia|].
    apply IH. lia. }
  by apply Hk.
Qed.

(** The table computes the classic recurrence. *)
Lemma levenshteinDistance_editDistance :
  levenshteinDistance str1 str2 = D m n.
Proof.
  destruct lev_table_inv as [_ Hget]. unfold levenshteinDistance.
  apply Hget; [done..|]. unfold filled. lia.
Qed.
End LevenshteinCorrect.

Lemma editDistance_same (s : jsstring) i : editDistance s s i i = 0.
Proof.
  induction i as [|i IH]; [done|].
  rewrite editDistance_match by done. done.
Qed.

(** ** The outer loop, for every Number instance *)

Section Structure.
Context {num : Type} {JN : JSNumber num}.
Variable toLowerCase : jsstring -> jsstring.
Implicit Types (st : LoopState num) (b : Best num) (spoken : list jsstring)
  (used : gset Z).

Lemma window_body_wf spoken used i w b j :
  best_wf spoken used b → best_wf spoken used (window_body spoken used i w b j).
Proof.
  intros Hb. unfold window_body.
  case_bool_decide as Hu; [done|].
  destruct (spoken !! j) as [sw|] eqn:Hj; [|done].
  destruct (nlt _ _); [|done].
  exists j. done.
Qed.

Lemma window_search_wf spoken used i w :
  best_wf spoken used (window_search spoken used i w).
Proof.
  unfold window_search.
  generalize (seq (searchStart i) (searchEnd spoken i - searchStart i)).
  assert (Hinit : best_wf spoken used (mkBest None (of_nat 0) (-1))) by done.
  revert Hinit. generalize (mkBest (num:=num) None (of_nat 0) (-1)).
  intros b Hb l. revert b Hb.
  induction l as [|j l IH]; intros b Hb; simpl; [done|].
  apply IH. by apply window_body_wf.
Qed.

Lemma exact_scan_wf spoken used i w js b :
  best_wf spoken used b → best_wf spoken used (exact_scan spoken used i w js b).
Proof.
  intros Hb. induction js as [|j js IH]; simpl; [done|].
  case_bool_decide as Hu; [done|].
  destruct (_ && _); [done|].
  destruct (spoken !! j) as [sw|] eqn:Hj; [|done].
  case_bool_decide; [|done].
  exists j. done.
Qed.

Lemma find_best_wf spoken used i w :
  best_wf spoken used (find_best spoken used i w).
Proof.
  unfold find_best, exact_match_anywhere.
  destruct (nlt _ _); [apply exact_scan_wf|]; apply window_search_wf.
Qed.

Lemma truthy_Some o : truthy o = true → ∃ c s, o = Some (c :: s).
Proof. destruct o as [[|c s]|]; simpl; try done. eauto. Qed.

(** What one classification does to the loop state. *)
Lemma classify_eq thr w b st :
  classify thr w b st =
  mkLoopState
    (mkResults (originalWords (results st)) (spokenWords (results st))
       (wordResults (results st) ++ [record_of thr w b])
       (correctCount (results st) + status_count correct (record_of thr w b))
       (incorrectCount (results st) + status_count incorrect (record_of thr w b))
       (missedCount (results st) + status_count missed (record_of thr w b))
       (extraCount (results st)) (accuracy (results st)))
    (if consumes thr b then {[ bestIndex b ]} ∪ usedSpokenIndices st
     else usedSpokenIndices st).
Proof.
  unfold classify, record_of, consumes, status_count.
  destruct (truthy (bestMatch b)), (nle thr (bestSimilarity b)),
    (nle lit_0_5 (bestSimilarity b)); simpl;
    unfold incr_correctCount, incr_incorrectCount, incr_missedCount,
      push_wordResult; simpl; by rewrite ?Nat.add_0_r.
Qed.

Lemma consumes_status thr w b :
  consumes thr b = bool_decide (wr_status (record_of thr w b) ≠ missed).
Proof.
  unfold consumes, record_of.
  by destruct (truthy (bestMatch b)), (nle thr (bestSimilarity b)),
    (nle lit_0_5 (bestSimilarity b)).
Qed.

Lemma consumes_truthy thr b : consumes thr b = true → truthy (bestMatch b) = true.
Proof. unfold consumes. by intros [? _]%andb_true_iff. Qed.

Lemma status_count_sum (r : WordResult num) :
  status_count correct r + status_count incorrect r + status_count missed r = 1.
Proof. unfold status_count. by destruct (wr_status r). Qed.

Lemma status_count_consumed thr w b :
  status_count correct (record_of thr w b) + status_count incorrect (record_of thr w b)
  = if consumes thr b then 1 else 0.
Proof.
  rewrite (consumes_status thr w). unfold status_count.
  by destruct (wr_status (record_of thr w b)).
Qed.

Lemma filter_status_snoc (s : Status) (l : list (WordResult num)) r :
  length (filter (λ r, wr_status r = s) (l ++ [r]))
  = length (filter (λ r, wr_status r = s) l) + status_count s r.
Proof.
  rewrite filter_app, length_app. f_equal.
  unfold status_count. rewrite filter_cons, filter_nil.
  by destruct (decide (wr_status r = s)).
Qed.

Lemma compare_loop_S original spokenText thr k :
  compare_loop toLowerCase original spokenText thr (S k) =
  compare_body thr (compare_loop toLowerCase original spokenText thr k) k.
Proof. unfold compare_loop. by rewrite seq_S, foldl_app. Qed.

(** The candidate that wins at reference position [i], given the state
    [st] in which the iteration starts. *)
Lemma compare_body_eq thr st i w :
  originalWords (results st) !! i = Some w →
  compare_body thr st i =
  classify thr w (find_best (spokenWords (results st)) (usedSpokenIndices st) i w) st.
Proof. intros Hw. unfold compare_body. by rewrite Hw. Qed.

(** An index that is consumed is a fresh index of the spoken sequence. *)
Lemma find_best_fresh thr spoken used i w :
  consumes thr (find_best spoken used i w) = true →
  ∃ j : nat, bestIndex (find_best spoken used i w) = Z.of_nat j ∧
             (Z.of_nat j ∉ used) ∧
             spoken !! j = bestMatch (find_best spoken used i w).
Proof.
  intros Hc%consumes_truthy. destruct (truthy_Some _ Hc) as (c & s & Hm).
  pose proof (find_best_wf spoken used i w) as Hwf.
  unfold best_wf in Hwf. rewrite Hm in Hwf. destruct Hwf as (j & Hj & Hn & Hl).
  exists j. by rewrite Hm.
Qed.

Lemma compare_loop_inv original spokenText thr k :
  k ≤ length (tokenize toLowerCase original) →
  loop_inv toLowerCase original spokenText k
    (compare_loop toLowerCase original spokenText thr k).
Proof.
  induction k as [|k IH]; intros Hk.
  - split; simpl; try done; set_solver.
  - rewrite compare_loop_S.
    destruct IH as [Ho Hs Hr Hc Hcc Hic Hmc Hsz Hrg He Ha]; [lia|].
    set (st := compare_loop toLowerCase original spokenText thr k) in *.
    destruct (lookup_lt_is_Some_2 (tokenize toLowerCase original) k) as [w Hw]; [lia|].
    rewrite (compare_body_eq thr st k w) by (by rewrite Ho).
    set (b := find_best _ _ _ _).
    pose proof (find_best_fresh thr (spokenWords (results st))
                  (usedSpokenIndices st) k w) as Hfresh.
    fold b in Hfresh.
    pose proof (status_count_sum (record_of thr w b)) as Hsum.
    pose proof (status_count_consumed thr w b) as Hcons.
    rewrite classify_eq.
    split; simpl.
    + done.
    + done.
    + rewrite fmap_app, Hr. simpl.
      rewrite (take_S_r _ _ _ Hw). f_equal.
      unfold record_of. by repeat case_match.
    + lia.
    + rewrite filter_status_snoc. lia.
    + rewrite filter_status_snoc. lia.
    + rewrite filter_status_snoc. lia.
    + destruct (consumes thr b).
      * destruct Hfresh as (j & Hj & Hn & _); [done|].
        assert (Hd : {[ bestIndex b ]} ## usedSpokenIndices st)
          by (apply disjoint_singleton_l; by rewrite Hj).
        rewrite (size_union _ _ Hd), size_singleton. lia.
      * lia.
    + intros z. destruct (consumes thr b) eqn:Hcb; [|by apply Hrg].
      destruct Hfresh as (j & Hj & _ & Hl); [done|].
      rewrite elem_of_union, elem_of_singleton. intros [->|Hz]; [|by apply Hrg].
      assert (is_Some (spokenWords (results st) !! j)) as Hsome.
      { rewrite Hl. destruct (truthy_Some (bestMatch b)) as (c & s & ->); [|done].
        by apply (consumes_truthy thr). }
      apply lookup_lt_is_Some_1 in Hsome. rewrite Hs in Hsome. lia.
    + done.
    + done.
Qed.

(** [compare_finish] only writes [extraCount] and [accuracy]. *)
Lemma compare_finish_fields st :
  let r := compare_finish st in
  originalWords r = originalWords (results st) ∧
  spokenWords r = spokenWords (results st) ∧
  wordResults r = wordResults (results st) ∧
  correctCount r = correctCount (results st) ∧
  incorrectCount r = incorrectCount (results st) ∧
  missedCount r = missedCount (results st) ∧
  extraCount r =
    Z.to_nat (Z.max 0 (Z.of_nat (length (spokenWords (results st)))
                       - Z.of_nat (size (usedSpokenIndices st)))) ∧
  accuracy r =
    if Nat.ltb 0 (length (originalWords (results st))) then
      Math_round (nmul (ndiv (of_nat (correctCount (results st)))
                             (of_nat (length (originalWords (results st)))))
                       (of_nat 100))
    else accuracy (results st).
Proof.
  unfold compare_finish. simpl.
  by destruct (Nat.ltb 0 (length (originalWords (results st)))).
Qed.

(** The records of the first [k] iterations are not touched later. *)
Lemma compare_loop_wordResults_prefix original spokenText thr k k' :
  k ≤ k' → k' ≤ length (tokenize toLowerCase original) →
  wordResults (results (compare_loop toLowerCase original spokenText thr k))
  = take k (wordResults (results (compare_loop toLowerCase original spokenText thr k'))).
Proof.
  intros Hk Hk'. induction Hk as [|k' Hle IH].
  - pose proof (compare_loop_inv original spokenText thr k Hk') as Hinv.
    rewrite firstn_all2; [done|].
    pose proof (f_equal length (inv_records _ _ _ _ _ Hinv)) as Hlen.
    rewrite length_fmap, length_take in Hlen. lia.
  - rewrite IH by lia.
    pose proof (compare_loop_inv original spokenText thr k' ltac:(lia)) as Hinv.
    destruct (lookup_lt_is_Some_2 (tokenize toLowerCase original) k') as [w Hw]; [lia|].
    rewrite compare_loop_S, (compare_body_eq thr _ k' w)
      by (by rewrite (inv_originalWords _ _ _ _ _ Hinv)).
    rewrite classify_eq. simpl. rewrite take_app_le; [done|].
    pose proof (f_equal length (inv_records _ _ _ _ _ Hinv)) as Hlen.
    rewrite length_fmap, length_take in Hlen. lia.
Qed.

(** The record of reference position [i] in the result of [compare] is the
    classification of the candidate found in the state after [i]
    iterations. *)
Lemma compare_wordResults_lookup original spokenText thr i w :
  tokenize toLowerCase original !! i = Some w →
  wordResults (compare toLowerCase original spokenText thr) !! i =
  Some (record_of thr w
          (find_best (tokenize toLowerCase spokenText)
             (usedSpokenIndices (compare_loop toLowerCase original spokenText thr i))
             i w)).
Proof.
  intros Hw. pose proof (lookup_lt_Some _ _ _ Hw) as Hi.
  unfold compare.
  destruct (compare_finish_fields
              (compare_loop toLowerCase original spokenText thr
                 (length (tokenize toLowerCase original))))
    as (_ & _ & -> & _).
  pose proof (compare_loop_wordResults_prefix original spokenText thr (S i)
                (length (tokenize toLowerCase original)) ltac:(lia) ltac:(lia)) as Hpre.
  pose proof (compare_loop_inv original spokenText thr i ltac:(lia)) as Hinv.
  rewrite <- (lookup_take_lt _ (S i)) by lia. rewrite <- Hpre.
  rewrite compare_loop_S, (compare_body_eq thr _ i w)
    by (by rewrite (inv_originalWords _ _ _ _ _ Hinv)).
  rewrite classify_eq. simpl.
  rewrite (inv_spokenWords _ _ _ _ _ Hinv).
  pose proof (f_equal length (inv_records _ _ _ _ _ Hinv)) as Hlen.
  rewrite length_fmap, length_take in Hlen.
  rewrite lookup_app_r by lia.
  replace (i - length _) with 0 by lia. done.
Qed.
End Structure.

(** ** Coverage, consumed indices, empty reference, accuracy *)

Section Coverage.
Context {num : Type} {JN : JSNumber num}.
Variable toLowerCase : jsstring -> jsstring.
Implicit Types (st : LoopState num).

Lemma compare_fields original spokenText thr :
  let n := length (tokenize toLowerCase original) in
  let st := compare_loop toLowerCase original spokenText thr n in
  let r := compare toLowerCase original spokenText thr in
  loop_inv toLowerCase original spokenText n st ∧
  originalWords r = tokenize toLowerCase original ∧
  spokenWords r = tokenize toLowerCase spokenText ∧
  wordResults r = wordResults (results st) ∧
  correctCount r = correctCount (results st) ∧
  incorrectCount r = incorrectCount (results st) ∧
  missedCount r = missedCount (results st) ∧
  extraCount r =
    Z.to_nat (Z.max 0 (Z.of_nat (length (tokenize toLowerCase spokenText))
                       - Z.of_nat (size (usedSpokenIndices st)))) ∧
  accuracy r =
    if Nat.ltb 0 n then
      Math_round (nmul (ndiv (of_nat (correctCount r)) (of_nat n)) (of_nat 100))
    else of_nat 0.
Proof.
  intros n st r.
  pose proof (compare_loop_inv toLowerCase original spokenText thr n (Nat.le_refl _)) as Hinv.
  fold st in Hinv. split; [done|].
  destruct (compare_finish_fields st) as (Ho & Hs & Hw & Hc & Hi & Hm & He & Ha).
  change (compare_finish st) with r in Ho, Hs, Hw, Hc, Hi, Hm, He, Ha.
  destruct Hinv as [Ho' Hs' _ _ _ _ _ _ _ _ Ha'].
  rewrite Ho, Hs, Hw, Hc, Hi, Hm, He, Ha, Ho', Hs', Ha'.
  repeat split; try done.
Qed.


(** A set of integers of the interval [0, n) has at most [n] elements. *)
Lemma size_bounded (X : gset Z) (n : nat) :
  (∀ z, z ∈ X → (0 ≤ z < Z.of_nat n)%Z) → size X ≤ n.
Proof.
  intros HX.
  assert (Hsub : X ⊆ list_to_set (Z.of_nat <$> seq 0 n)).
  { intros z Hz. apply elem_of_list_to_set, list_elem_of_fmap.
    exists (Z.to_nat z). split; [specialize (HX z Hz); lia|].
    apply elem_of_seq. specialize (HX z Hz). lia. }
  apply subseteq_size in Hsub.
  rewrite size_list_to_set in Hsub.
  - by rewrite length_fmap, length_seq in Hsub.
  - apply NoDup_fmap_2; [apply _|apply NoDup_seq].
Qed.

Lemma compare_body_fresh thr st i :
  let st' := compare_body thr st i in
  usedSpokenIndices st' = usedSpokenIndices st ∨
  ∃ j : nat, (Z.of_nat j ∉ usedSpokenIndices st) ∧
             usedSpokenIndices st' = {[ Z.of_nat j ]} ∪ usedSpokenIndices st.
Proof.
  unfold compare_body.
  destruct (originalWords (results st) !! i) as [w|]; [|by left].
  rewrite classify_eq. simpl.
  destruct (consumes thr _) eqn:Hc; [|by left].
  destruct (find_best_fresh _ _ _ _ _ Hc) as (j & Hj & Hn & _).
  right. exists j. by rewrite Hj.
Qed.
End Coverage.

(** C1. For every pair of texts and every threshold, [compare] returns one
    word match record per reference token, in reference order: the
    [original] fields of the records are the reference tokens, there are as
    many records as reference tokens, the three counters add up to that
    number, and each counter is the number of records of its status. *)
Theorem compare_total_coverage {num : Type} {JN : JSNumber num}
    (toLowerCase : jsstring -> jsstring) (originalText spokenText : jsstring)
    (correctThreshold : num) :
  let r := compare toLowerCase originalText spokenText correctThreshold in
  originalWords r = tokenize toLowerCase originalText ∧
  wr_original <$> wordResults r = originalWords r ∧
  length (wordResults r) = length (originalWords r) ∧
  correctCount r + incorrectCount r + missedCount r = length (originalWords r) ∧
  correctCount r = length (filter (λ w, wr_status w = correct) (wordResults r)) ∧
  incorrectCount r = length (filter (λ w, wr_status w = incorrect) (wordResults r)) ∧
  missedCount r = length (filter (λ w, wr_status w = missed) (wordResults r)).
Proof.
  intros r.
  destruct (compare_fields toLowerCase originalText spokenText correctThreshold)
    as (Hinv & Ho & _ & Hw & Hc & Hi & Hm & _).
  fold r in Ho, Hw, Hc, Hi, Hm.
  destruct Hinv as [_ _ Hr Hsum Hcc Hic Hmc _ _ _ _].
  rewrite firstn_all in Hr.
  rewrite Ho, Hw, Hc, Hi, Hm.
  pose proof (f_equal length Hr) as Hlen. rewrite length_fmap in Hlen.
  repeat split; done.
Qed.

(** C3, as amended. When the reference text has no token, [compare] returns
    no record, accuracy 0 and the counters [correctCount], [incorrectCount],
    [missedCount] at 0; [extraCount] is the number of spoken tokens. *)
Theorem compare_empty_reference {num : Type} {JN : JSNumber num}
    (toLowerCase : jsstring -> jsstring) (originalText spokenText : jsstring)
    (correctThreshold : num) :
  tokenize toLowerCase originalText = [] →
  let r := compare toLowerCase originalText spokenText correctThreshold in
  wordResults r = [] ∧ accuracy r = of_nat 0 ∧ correctCount r = 0 ∧
  incorrectCount r = 0 ∧ missedCount r = 0 ∧
  extraCount r = length (tokenize toLowerCase spokenText).
Proof.
  intros He r.
  assert (Hn : length (tokenize toLowerCase originalText) = 0) by (by rewrite He).
  destruct (compare_fields toLowerCase originalText spokenText correctThreshold)
    as (Hinv & _ & _ & Hw & Hc & Hi & Hm & Hex & Ha).
  fold r in Hw, Hc, Hi, Hm, Hex, Ha.
  destruct Hinv as [_ _ Hr Hsum _ _ _ Hsz _ _ _].
  apply (f_equal length) in Hr. rewrite length_fmap, length_take, <- Hw in Hr.
  rewrite Hn in Ha. simpl in Ha.
  rewrite Hc, Hi, Hm, Hex, Ha, Hsz.
  repeat split; try done; try lia.
  apply nil_length_inv. lia.
Qed.

Lemma compare_empty_reference_witness :
  tokenize ascii_toLowerCase (js "") = [] ∧
  let r := compare (JN := Binary64) ascii_toLowerCase (js "")
             (js "herhangi bir sey") lit_0_70 in
  wordResults r = [] ∧ accuracy r = of_nat 0 ∧ correctCount r = 0 ∧
  incorrectCount r = 0 ∧ missedCount r = 0 ∧
  extraCount r = length (tokenize ascii_toLowerCase (js "herhangi bir sey")).
Proof.
  split; [reflexivity|].
  apply (compare_empty_reference (JN := Binary64) ascii_toLowerCase (js "")
           (js "herhangi bir sey") lit_0_70).
  reflexivity.
Defined.

(** C3, as stated, fails: with an empty reference and three spoken tokens
    [extraCount] is 3, not 0 (in both Number instances). *)
Lemma compare_empty_reference_extraCount :
  ¬ all_zero (compare (JN := Binary64) ascii_toLowerCase (js "")
                (js "herhangi bir sey") lit_0_70) ∧
  ¬ all_zero (compare (JN := Exact) ascii_toLowerCase (js "")
                (js "herhangi bir sey") lit_0_70) ∧
  extraCount (compare (JN := Binary64) ascii_toLowerCase (js "")
                (js "herhangi bir sey") lit_0_70) = 3.
Proof.
  split; [|split].
  - intros (_ & _ & _ & _ & _ & He). vm_compute in He. discriminate He.
  - intros (_ & _ & _ & _ & _ & He). vm_compute in He. discriminate He.
  - vm_compute. reflexivity.
Qed.

(** C9. The indices consumed by correct and incorrect matches are pairwise
    distinct indices of the spoken sequence: every iteration of the outer
    loop either leaves the set of consumed indices alone or adds an index
    that was not in it; the set has [correctCount + incorrectCount] elements,
    all in the range of the spoken sequence. Hence
    [correctCount + incorrectCount] is at most the number of spoken tokens,
    [extraCount] is their difference, and the [Math.max(0, ...)] of the
    [extraCount] computation returns its second argument. *)
Theorem consumed_indices_distinct {num : Type} {JN : JSNumber num}
    (toLowerCase : jsstring -> jsstring) (originalText spokenText : jsstring)
    (correctThreshold : num) :
  let loop := compare_loop toLowerCase originalText spokenText correctThreshold in
  let used := usedSpokenIndices (loop (length (tokenize toLowerCase originalText))) in
  let r := compare toLowerCase originalText spokenText correctThreshold in
  (∀ k : nat,
     usedSpokenIndices (loop (S k)) = usedSpokenIndices (loop k) ∨
     ∃ j : nat, (Z.of_nat j ∉ usedSpokenIndices (loop k)) ∧
                usedSpokenIndices (loop (S k))
                = {[ Z.of_nat j ]} ∪ usedSpokenIndices (loop k)) ∧
  size used = correctCount r + incorrectCount r ∧
  (∀ z, z ∈ used → (0 ≤ z < Z.of_nat (length (spokenWords r)))%Z) ∧
  correctCount r + incorrectCount r ≤ length (spokenWords r) ∧
  extraCount r + (correctCount r + incorrectCount r) = length (spokenWords r) ∧
  Z.max 0 (Z.of_nat (length (spokenWords r)) - Z.of_nat (size used))
  = (Z.of_nat (length (spokenWords r)) - Z.of_nat (size used))%Z.
Proof.
  intros loop used r.
  destruct (compare_fields toLowerCase originalText spokenText correctThreshold)
    as (Hinv & _ & Hs & _ & Hc & Hi & _ & He & _).
  fold r in Hs, Hc, Hi, He. fold loop in Hinv, He. fold used in He.
  destruct Hinv as [_ _ _ _ _ _ _ Hsz Hrg _ _]. fold used in Hsz, Hrg.
  assert (Hle : size used ≤ length (tokenize toLowerCase spokenText))
    by (by apply size_bounded).
  split.
  { intros k. unfold loop. rewrite compare_loop_S. apply compare_body_fresh. }
  change (compare_loop toLowerCase originalText spokenText correctThreshold)
    with loop in Hc, Hi.
  rewrite Hs. repeat split; try lia.
  all: by apply Hrg.
Qed.


(** ** Accuracy *)

Lemma Qfloor_nonneg (q : Q) : (0 <= q)%Q → (0 ≤ Qfloor q)%Z.
Proof. intros Hq. change 0%Z with (Qfloor 0). by apply Qfloor_resp_le. Qed.

Lemma inject_nat_pos (n : nat) : 0 < n → (0 < inject_Z (Z.of_nat n))%Q.
Proof. intros Hn. change 0%Q with (inject_Z 0). rewrite <- Zlt_Qlt. lia. Qed.

Lemma inject_nat_nonneg (n : nat) : (0 <= inject_Z (Z.of_nat n))%Q.
Proof. change 0%Q with (inject_Z 0). rewrite <- Zle_Qle. lia. Qed.

Lemma exact_accuracy_rounded (c n : nat) :
  0 < n →
  Qround_half_up (inject_Z (Z.of_nat c) / inject_Z (Z.of_nat n) * inject_Z (Z.of_nat 100))
  = inject_Z (Z.of_nat (Z.to_nat (rounded_percentage c n))).
Proof.
  intros Hn. unfold rounded_percentage, Qround_half_up. f_equal.
  pose proof (inject_nat_pos n Hn) as Hpos.
  pose proof (inject_nat_nonneg c) as Hc.
  assert (Heq : (inject_Z (Z.of_nat c) / inject_Z (Z.of_nat n) * inject_Z (Z.of_nat 100)
                 + (1 # 2)
                 == inject_Z (100 * Z.of_nat c) / inject_Z (Z.of_nat n) + (1 # 2))%Q).
  { rewrite inject_Z_mult. change (inject_Z (Z.of_nat 100)) with (inject_Z 100).
    field. intros H0. rewrite H0 in Hpos. by apply Qlt_irrefl in Hpos. }
  rewrite <- (Qfloor_comp _ _ Heq). rewrite Z2Nat.id; [done|].
  apply Qfloor_nonneg.
  apply Qle_trans with (0 + (1 # 2))%Q; [done|].
  apply Qplus_le_l. apply Qmult_le_0_compat; [|done].
  apply Qle_shift_div_l; [done|]. by rewrite Qmult_0_l.
Qed.

(** C8, as amended. The accuracy field is [Math.round] applied to the
    Number [(correctCount / len) * 100], and 0 when the reference has no
    token; when the arithmetic is exact this is [round (100 * correctCount /
    len)], a half rounded up. *)
Theorem compare_accuracy (toLowerCase : jsstring -> jsstring)
    (originalText spokenText : jsstring) :
  (∀ (num : Type) (JN : JSNumber num) (correctThreshold : num),
     let r := compare toLowerCase originalText spokenText correctThreshold in
     accuracy r =
       if Nat.eqb (length (originalWords r)) 0 then of_nat 0
       else Math_round (nmul (ndiv (of_nat (correctCount r))
                                   (of_nat (length (originalWords r))))
                             (of_nat 100))) ∧
  (∀ correctThreshold : Q,
     let r := compare (JN := Exact) toLowerCase originalText spokenText
                correctThreshold in
     accuracy r = spec_accuracy (correctCount r) (length (originalWords r))).
Proof.
  assert (Hgen : ∀ (num : Type) (JN : JSNumber num) (correctThreshold : num),
     let r := compare toLowerCase originalText spokenText correctThreshold in
     accuracy r =
       if Nat.eqb (length (originalWords r)) 0 then of_nat 0
       else Math_round (nmul (ndiv (of_nat (correctCount r))
                                   (of_nat (length (originalWords r))))
                             (of_nat 100))).
  { intros num JN thr r.
    destruct (compare_fields toLowerCase originalText spokenText thr)
      as (_ & Ho & _ & _ & _ & _ & _ & _ & Ha).
    fold r in Ho, Ha. rewrite Ha, Ho.
    by destruct (length (tokenize toLowerCase originalText)). }
  split; [exact Hgen|].
  intros thr r. unfold r. rewrite Hgen. fold r.
  destruct (Nat.eqb_spec (length (originalWords r)) 0) as [H0|H0].
  - unfold spec_accuracy. by rewrite H0.
  - unfold spec_accuracy. destruct (Nat.eqb_spec (length (originalWords r)) 0); [done|].
    apply exact_accuracy_rounded. lia.
Qed.

(** C8, as stated, fails in double precision: with 23 correct words out of
    40 the code computes [(23 / 40) * 100 = 57.49999999999999], strictly
    below 57.5, and rounds it to 57, while [round (100 * 23 / 40)] is 58
    (57.5 rounds to 58 under either treatment of a half). *)
Lemma accuracy_23_of_40 :
  let r := compare (JN := Binary64) ascii_toLowerCase (repeated_word 40)
             (repeated_word 23) lit_0_70 in
  correctCount r = 23 ∧ length (originalWords r) = 40 ∧
  accuracy r = of_nat 57 ∧
  spec_accuracy (JN := Binary64) 23 40 = of_nat 58 ∧
  accuracy r ≠ spec_accuracy (correctCount r) (length (originalWords r)) ∧
  nlt (nmul (ndiv (of_nat 23) (of_nat 40)) (of_nat 100))
      (ndiv (of_nat (JSNumber := Binary64) 115) (of_nat 2)) = true.
Proof.
  assert (Ha : accuracy (compare (JN := Binary64) ascii_toLowerCase
                 (repeated_word 40) (repeated_word 23) lit_0_70)
               = of_nat 57) by (vm_compute; reflexivity).
  assert (Hc : correctCount (compare (JN := Binary64) ascii_toLowerCase
                 (repeated_word 40) (repeated_word 23) lit_0_70) = 23)
    by (vm_compute; reflexivity).
  assert (Hn : length (originalWords (compare (JN := Binary64) ascii_toLowerCase
                 (repeated_word 40) (repeated_word 23) lit_0_70)) = 40)
    by (vm_compute; reflexivity).
  assert (Hs : spec_accuracy (JN := Binary64) 23 40 = of_nat 58)
    by (vm_compute; reflexivity).
  cbv zeta. rewrite Hc, Hn, Ha, Hs.
  split; [done|]. split; [done|]. split; [done|]. split; [done|]. split.
  - intros Heq. apply (f_equal (λ x, PrimFloat.eqb x (of_nat 57))) in Heq.
    vm_compute in Heq. discriminate Heq.
  - vm_compute. reflexivity.
Qed.


(** ** Comparisons of the exact instance *)

Lemma exact_nle (a b : Q) : nle (JSNumber := Exact) a b = true ↔ (a <= b)%Q.
Proof. apply Qle_bool_iff. Qed.

Lemma exact_nle_false (a b : Q) : nle (JSNumber := Exact) a b = false ↔ (b < a)%Q.
Proof.
  simpl. split.
  - intros Hf. apply Qnot_le_lt. intros Hle%Qle_bool_iff. congruence.
  - intros Hlt. destruct (Qle_bool a b) eqn:Hb; [|done].
    apply Qle_bool_iff in Hb. by apply Qlt_not_le in Hlt.
Qed.

Lemma exact_nlt (a b : Q) : nlt (JSNumber := Exact) a b = true ↔ (a < b)%Q.
Proof.
  simpl. unfold Qlt_bool. rewrite negb_true_iff. apply (exact_nle_false b a).
Qed.


(** ** Tokens *)

Lemma tokenize_nonempty toLowerCase (text w : jsstring) :
  w ∈ tokenize toLowerCase text → w ≠ [].
Proof.
  unfold tokenize. intros [Hlen _]%list_elem_of_filter ->. simpl in Hlen. lia.
Qed.

Lemma tokenize_lookup_nonempty toLowerCase (text w : jsstring) (i : nat) :
  tokenize toLowerCase text !! i = Some w → ∃ c s, w = c :: s.
Proof.
  intros Hw%list_elem_of_lookup_2%tokenize_nonempty.
  destruct w as [|c s]; [done|]. eauto.
Qed.

(** ** Classification *)

(** C4, as amended. In the classification of the winning candidate, a score
    at least [correctThreshold], so also one exactly equal to it, is
    classified correct and the matched spoken index is consumed; a score at
    least 0.50 and strictly below [correctThreshold] is classified incorrect,
    also consuming the index; a score below both 0.50 and [correctThreshold],
    or the absence of a candidate, is classified missed with the spoken field
    empty, similarity 0 and no index consumed. With a threshold of at least
    0.50, as the default 0.70, every score below 0.50 is therefore missed. *)
Theorem classification_policy (correctThreshold : Q) (originalWord : jsstring)
    (b : Best Q) (st : LoopState Q) :
  let st' := classify correctThreshold originalWord b st in
  let r := record_of correctThreshold originalWord b in
  wordResults (results st') = wordResults (results st) ++ [r] ∧
  (truthy (bestMatch b) = true → (bestSimilarity b == correctThreshold)%Q →
   wr_status r = correct ∧
   usedSpokenIndices st' = {[ bestIndex b ]} ∪ usedSpokenIndices st) ∧
  (truthy (bestMatch b) = true → (correctThreshold <= bestSimilarity b)%Q →
   r = mkWordResult originalWord (default [] (bestMatch b)) correct (bestSimilarity b) ∧
   usedSpokenIndices st' = {[ bestIndex b ]} ∪ usedSpokenIndices st) ∧
  (truthy (bestMatch b) = true →
   (5 # 10 <= bestSimilarity b)%Q → (bestSimilarity b < correctThreshold)%Q →
   r = mkWordResult originalWord (default [] (bestMatch b)) incorrect (bestSimilarity b) ∧
   usedSpokenIndices st' = {[ bestIndex b ]} ∪ usedSpokenIndices st) ∧
  (truthy (bestMatch b) = false ∨
   ((bestSimilarity b < 5 # 10)%Q ∧ (bestSimilarity b < correctThreshold)%Q) →
   r = mkWordResult originalWord [] missed 0%Q ∧
   usedSpokenIndices st' = usedSpokenIndices st) ∧
  ((5 # 10 <= correctThreshold)%Q → (bestSimilarity b < 5 # 10)%Q →
   r = mkWordResult originalWord [] missed 0%Q ∧
   usedSpokenIndices st' = usedSpokenIndices st).
Proof.
  intros st' r. unfold st'. rewrite classify_eq. simpl. fold r.
  assert (Hcorrect : truthy (bestMatch b) = true →
    (correctThreshold <= bestSimilarity b)%Q →
    r = mkWordResult originalWord (default [] (bestMatch b)) correct (bestSimilarity b) ∧
    (if consumes correctThreshold b
     then {[ bestIndex b ]} ∪ usedSpokenIndices st else usedSpokenIndices st)
    = {[ bestIndex b ]} ∪ usedSpokenIndices st).
  { intros Ht Hle%exact_nle. unfold r, record_of, consumes. by rewrite Ht, Hle. }
  assert (Hmissed : truthy (bestMatch b) = false ∨
    ((bestSimilarity b < 5 # 10)%Q ∧ (bestSimilarity b < correctThreshold)%Q) →
    r = mkWordResult originalWord [] missed 0%Q ∧
    (if consumes correctThreshold b
     then {[ bestIndex b ]} ∪ usedSpokenIndices st else usedSpokenIndices st)
    = usedSpokenIndices st).
  { unfold r, record_of, consumes. intros [Ht|[H5%exact_nle_false Hthr%exact_nle_false]].
    - by rewrite Ht.
    - change (nle lit_0_5 (bestSimilarity b)) with (nle (5 # 10)%Q (bestSimilarity b)).
      rewrite H5, Hthr. by rewrite !andb_false_r. }
  split; [done|]. split; [|split; [done|split; [|split; [done|]]]].
  - intros Ht Heq. destruct (Hcorrect Ht) as [-> ?]; [|done].
    rewrite Heq. apply Qle_refl.
  - intros Ht H5%exact_nle Hthr%exact_nle_false. unfold r, record_of, consumes.
    change (nle lit_0_5 (bestSimilarity b)) with (nle (5 # 10)%Q (bestSimilarity b)).
    by rewrite Ht, H5, Hthr.
  - intros Hthr H5. apply Hmissed. right. split; [done|].
    by apply Qlt_le_trans with (5 # 10)%Q.
Qed.

Lemma classification_policy_witness :
  let b := find_best (JN := Exact) [js "abxyz"] ∅ 0 (js "abcde") in
  let st := compare_init (JN := Exact) ascii_toLowerCase (js "abcde") (js "abxyz") in
  (5 # 10 <= 7 # 10)%Q ∧ (bestSimilarity b < 5 # 10)%Q ∧
  record_of (7 # 10)%Q (js "abcde") b = mkWordResult (js "abcde") [] missed 0%Q ∧
  usedSpokenIndices (classify (7 # 10)%Q (js "abcde") b st) = usedSpokenIndices st.
Proof.
  assert (H1 : (5 # 10 <= 7 # 10)%Q) by (by apply exact_nle).
  assert (H2 : (bestSimilarity (find_best (JN := Exact) [js "abxyz"] ∅ 0 (js "abcde"))
                < 5 # 10)%Q) by (apply exact_nlt; vm_compute; reflexivity).
  split; [exact H1|]. split; [exact H2|].
  exact (proj2 (proj2 (proj2 (proj2 (proj2
    (classification_policy (7 # 10)%Q (js "abcde")
       (find_best (JN := Exact) [js "abxyz"] ∅ 0 (js "abcde"))
       (compare_init (JN := Exact) ascii_toLowerCase (js "abcde") (js "abxyz")))))))
    H1 H2).
Defined.

(** C4, as stated, fails for a threshold below 0.50: with threshold 0.3 the
    candidate of score 0.4 (edit distance 3 on five characters) is below 0.50
    and yet classified correct, in both Number instances. *)
Lemma score_below_half_correct :
  ¬ fixed_missed_bound (JN := Exact) (3 # 10)%Q (js "abcde")
      (find_best (JN := Exact) [js "abxyz"] ∅ 0 (js "abcde"))
      (compare_init (JN := Exact) ascii_toLowerCase (js "abcde") (js "abxyz")) ∧
  ¬ fixed_missed_bound (JN := Binary64) (PrimFloat.div 3 10) (js "abcde")
      (find_best (JN := Binary64) [js "abxyz"] ∅ 0 (js "abcde"))
      (compare_init (JN := Binary64) ascii_toLowerCase (js "abcde") (js "abxyz")) ∧
  wr_status <$> wordResults (compare (JN := Exact) ascii_toLowerCase
                               (js "abcde") (js "abxyz") (3 # 10)%Q) = [correct] ∧
  wr_status <$> wordResults (compare (JN := Binary64) ascii_toLowerCase
                               (js "abcde") (js "abxyz") (PrimFloat.div 3 10))
  = [correct].
Proof.
  split; [|split; [|split]].
  - intros (_ & _ & H3).
    destruct H3 as (H3 & _); [left; vm_compute; reflexivity|].
    vm_compute in H3. discriminate H3.
  - intros (_ & _ & H3).
    destruct H3 as (H3 & _); [left; vm_compute; reflexivity|].
    vm_compute in H3. discriminate H3.
  - vm_compute. reflexivity.
  - vm_compute. reflexivity.
Qed.

(** ** The fallback scan, for every Number instance *)

Section Fallback.
Context {num : Type} {JN : JSNumber num}.
Variables (spoken : list jsstring) (used : gset Z) (i : nat) (w : jsstring).

Lemma exact_scan_cases (js : list nat) (b : Best num) :
  (exact_scan spoken used i w js b = b ∧
   ∀ j, j ∈ js → ¬ exact_candidate spoken used i w j) ∨
  (∃ js1 j0 js2, js = js1 ++ j0 :: js2 ∧
     (∀ j, j ∈ js1 → ¬ exact_candidate spoken used i w j) ∧
     exact_candidate spoken used i w j0 ∧
     exact_scan spoken used i w js b = mkBest (Some w) (of_nat 1) (Z.of_nat j0)).
Proof.
  induction js as [|j js IH]; simpl.
  - left. split; [done|]. intros j Hj. by apply elem_of_nil in Hj.
  - assert (Hskip : ¬ exact_candidate spoken used i w j →
      (exact_scan spoken used i w js b = b ∧
       ∀ j', j' ∈ j :: js → ¬ exact_candidate spoken used i w j') ∨
      (∃ js1 j0 js2, j :: js = js1 ++ j0 :: js2 ∧
         (∀ j', j' ∈ js1 → ¬ exact_candidate spoken used i w j') ∧
         exact_candidate spoken used i w j0 ∧
         exact_scan spoken used i w js b = mkBest (Some w) (of_nat 1) (Z.of_nat j0))).
    { intros Hn. destruct IH as [[Hb Hall]|(js1 & j0 & js2 & -> & Hall & Hc & Hb)].
      - left. split; [done|]. intros j' [->|Hj']%elem_of_cons; [done|by apply Hall].
      - right. exists (j :: js1), j0, js2. split; [done|]. split; [|done].
        intros j' [->|Hj']%elem_of_cons; [done|by apply Hall]. }
    case_bool_decide as Hu.
    { apply Hskip. intros (Hn & _). done. }
    destruct ((searchStart i <=? j) && (j <? searchEnd spoken i)) eqn:Hwin.
    { apply Hskip. intros (_ & Hn & _). apply Hn.
      apply andb_true_iff in Hwin as [H1%Nat.leb_le H2%Nat.ltb_lt]. lia. }
    destruct (spoken !! j) as [sw|] eqn:Hsw.
    2:{ apply Hskip. intros (_ & _ & Hn). congruence. }
    case_bool_decide as Heq.
    2:{ apply Hskip. intros (_ & _ & Hn). congruence. }
    subst sw. right. exists [], j, js. split; [done|]. split.
    { intros j' Hj'. by apply elem_of_nil in Hj'. }
    split; [|done]. split; [done|]. split; [|done].
    apply andb_false_iff in Hwin as [H1%Nat.leb_gt|H2%Nat.ltb_ge]; lia.
Qed.

(** The two outcomes of the search of one reference position: the windowed
    candidate, or the first exact match outside the window. *)
Lemma find_best_cases :
  let bw := window_search spoken used i w in
  (find_best spoken used i w = bw ∧
   (nlt (bestSimilarity bw) lit_0_9 = false ∨
    ∀ j, ¬ exact_candidate spoken used i w j)) ∨
  (nlt (bestSimilarity bw) lit_0_9 = true ∧
   ∃ j0, exact_candidate spoken used i w j0 ∧
         (∀ j', j' < j0 → ¬ exact_candidate spoken used i w j') ∧
         find_best spoken used i w = mkBest (Some w) (of_nat 1) (Z.of_nat j0)).
Proof.
  intros bw. unfold find_best, exact_match_anywhere. fold bw.
  destruct (nlt (bestSimilarity bw) lit_0_9) eqn:Hlt; [|left; by split; [|left]].
  destruct (exact_scan_cases (seq 0 (length spoken)) bw)
    as [[Hb Hall]|(js1 & j0 & js2 & Hjs & Hall & Hc & Hb)].
  - left. split; [done|]. right. intros j Hj. apply (Hall j); [|done].
    destruct Hj as (_ & _ & Hl). apply lookup_lt_Some in Hl.
    apply elem_of_seq. lia.
  - right. split; [done|]. exists j0. split; [done|]. split; [|done].
    intros j' Hlt'. apply Hall.
    assert (Hj0 : j0 = length js1).
    { pose proof (f_equal (λ l, l !! length js1) Hjs) as Hl. simpl in Hl.
      rewrite list_lookup_middle in Hl by done.
      apply lookup_seq in Hl. lia. }
    subst j0.
    pose proof (f_equal (λ l, l !! j') Hjs) as Hl. simpl in Hl.
    rewrite lookup_app_l in Hl by done.
    destruct (lookup_lt_is_Some_2 js1 j' Hlt') as [x Hx].
    rewrite Hx in Hl. apply lookup_seq in Hl as [Hl _]. simpl in Hl. subst x.
    by eapply list_elem_of_lookup_2.
Qed.
End Fallback.

(** ** Scores and the window scan in exact arithmetic *)

Section ExactScores.
Local Open Scope Q_scope.











Section Window.
Variables (spoken : list jsstring) (used : gset Z) (i : nat) (w : jsstring).




End Window.



End ExactScores.

(** ** Similarity, the fallback scan and the window scan *)


(** C6. When the best windowed score is below 0.9 and some unconsumed index
    outside the window holds exactly the reference token, the search returns
    the first such index with the score 1 and the token itself; for a
    threshold [correctThreshold <= 1] the record of that reference position
    is [correct] with similarity 1, and the index is consumed. When the best
    windowed score is not below 0.9, or there is no such index, the windowed
    candidate stands. *)
Theorem exact_match_fallback {num : Type} {JN : JSNumber num}
    (toLowerCase : jsstring -> jsstring) (originalText spokenText : jsstring)
    (correctThreshold : num) (i : nat) (w : jsstring) :
  let spoken := tokenize toLowerCase spokenText in
  let loop := compare_loop toLowerCase originalText spokenText correctThreshold in
  let used := usedSpokenIndices (loop i) in
  let bw := window_search spoken used i w in
  (nlt (bestSimilarity bw) lit_0_9 = false → find_best spoken used i w = bw) ∧
  ((∀ j, ¬ exact_candidate spoken used i w j) → find_best spoken used i w = bw) ∧
  (tokenize toLowerCase originalText !! i = Some w →
   nlt (bestSimilarity bw) lit_0_9 = true →
   ∀ j, exact_candidate spoken used i w j →
   ∃ j0, j0 ≤ j ∧ exact_candidate spoken used i w j0 ∧
         (∀ j', j' < j0 → ¬ exact_candidate spoken used i w j') ∧
         find_best spoken used i w = mkBest (Some w) (of_nat 1) (Z.of_nat j0) ∧
         (nle correctThreshold (of_nat 1) = true →
          wordResults (compare toLowerCase originalText spokenText correctThreshold) !! i
          = Some (mkWordResult w w correct (of_nat 1)) ∧
          usedSpokenIndices (loop (S i)) = {[ Z.of_nat j0 ]} ∪ used)).
Proof.
  intros spoken loop used bw.
  pose proof (find_best_cases spoken used i w) as Hcases. cbv zeta in Hcases. fold bw in Hcases.
  split; [|split].
  - intros Hf. destruct Hcases as [[Hb _]|[Ht _]]; [done|congruence].
  - intros Hnone. destruct Hcases as [[Hb _]|(_ & j0 & Hc & _)]; [done|].
    by destruct (Hnone j0).
  - intros Hw Hlt j Hj.
    destruct Hcases as [[_ [Hf|Hnone]]|(_ & j0 & Hc & Hfirst & Hb)];
      [congruence|by destruct (Hnone j)|].
    exists j0. split.
    { destruct (decide (j0 ≤ j)); [done|]. destruct (Hfirst j); [lia|done]. }
    repeat (split; [done|]).
    intros Hthr.
    destruct (tokenize_lookup_nonempty _ _ _ _ Hw) as (c & s & Hcs).
    assert (Hrec : record_of correctThreshold w (find_best spoken used i w)
                   = mkWordResult w w correct (of_nat 1)).
    { rewrite Hb. unfold record_of. simpl. rewrite Hthr. by rewrite Hcs. }
    assert (Hcons : consumes correctThreshold (find_best spoken used i w) = true).
    { rewrite Hb. unfold consumes. simpl. rewrite Hthr. by rewrite Hcs. }
    split.
    + rewrite (compare_wordResults_lookup toLowerCase originalText spokenText
                 correctThreshold i w Hw).
      by rewrite <- Hrec.
    + unfold loop. rewrite compare_loop_S.
      pose proof (compare_loop_inv toLowerCase originalText spokenText correctThreshold i) as Hinv.
      destruct Hinv as [Ho Hs _ _ _ _ _ _ _ _ _];
        [apply lookup_lt_Some in Hw; lia|].
      rewrite (compare_body_eq correctThreshold _ i w) by (by rewrite Ho).
      rewrite classify_eq. simpl. rewrite Hs. fold spoken loop used.
      by rewrite Hcons, Hb.
Qed.

Lemma exact_match_fallback_witness :
  let original := js "kedi" in
  let spokenText := js "a a a a a a a a a a a kedi" in
  let spoken := tokenize ascii_toLowerCase spokenText in
  let loop := compare_loop (JN := Binary64) ascii_toLowerCase original spokenText lit_0_70 in
  ∃ j0, j0 ≤ 11 ∧ exact_candidate spoken (usedSpokenIndices (loop 0)) 0 (js "kedi") j0 ∧
        (∀ j', j' < j0 →
               ¬ exact_candidate spoken (usedSpokenIndices (loop 0)) 0 (js "kedi") j') ∧
        find_best spoken (usedSpokenIndices (loop 0)) 0 (js "kedi")
        = mkBest (Some (js "kedi")) (of_nat 1) (Z.of_nat j0) ∧
        (nle lit_0_70 (of_nat 1) = true →
         wordResults (compare ascii_toLowerCase original spokenText lit_0_70) !! 0
         = Some (mkWordResult (js "kedi") (js "kedi") correct (of_nat 1)) ∧
         usedSpokenIndices (loop 1) = {[ Z.of_nat j0 ]} ∪ usedSpokenIndices (loop 0)).
Proof.
  apply (proj2 (proj2 (exact_match_fallback (JN := Binary64) ascii_toLowerCase
           (js "kedi") (js "a a a a a a a a a a a kedi") lit_0_70 0 (js "kedi")))).
  - reflexivity.
  - vm_compute. reflexivity.
  - split; [|split].
    + change (usedSpokenIndices _) with (∅ : gset Z). apply not_elem_of_empty.
    + vm_compute. lia.
    + reflexivity.
Defined.




(** ** Word match records *)

Section ExactRecords.
Local Open Scope Q_scope.


End ExactRecords.



(** ** Identity *)

Section Identity.
Variable toLowerCase : jsstring -> jsstring.
Variable T : jsstring.
Local Notation "'tokens'" := (tokenize toLowerCase T).
Local Open Scope Q_scope.




End Identity.



(** ** Evaluation in double precision *)

(** The decimal literals of the source, as doubles. *)
Example binary64_literals :
  lit_0_02 (JSNumber := Binary64) = 0x1.47ae147ae147bp-6%float ∧
  lit_0_5 (JSNumber := Binary64) = 0x1p-1%float ∧
  lit_0_70 (JSNumber := Binary64) = 0x1.6666666666666p-1%float ∧
  lit_0_9 (JSNumber := Binary64) = 0x1.ccccccccccccdp-1%float.
Proof. vm_compute. repeat split; reflexivity. Qed.

(** Case and punctuation are normalised away before the comparison. *)
Example binary64_case_punctuation :
  let r := compare_default (JN := Binary64) ascii_toLowerCase
             (js "Kedi, kopek!") (js "kedi kopek") in
  wr_status <$> wordResults r = [correct; correct] ∧
  correctCount r = 2 ∧ extraCount r = 0 ∧ accuracy r = of_nat 100.
Proof. vm_compute. repeat split; reflexivity. Qed.

(** An empty transcript: every reference word is missed. *)
Example binary64_empty_spoken :
  let r := compare_default (JN := Binary64) ascii_toLowerCase
             (js "kedi kopek kus") (js "") in
  wr_status <$> wordResults r = [missed; missed; missed] ∧
  missedCount r = 3 ∧ extraCount r = 0 ∧ accuracy r = of_nat 0.
Proof. vm_compute. repeat split; reflexivity. Qed.

(** Two spoken words are never consumed. *)
Example binary64_extra_words :
  let r := compare_default (JN := Binary64) ascii_toLowerCase
             (js "kedi") (js "kedi fazladan kelime") in
  wr_status <$> wordResults r = [correct] ∧
  correctCount r = 1 ∧ extraCount r = 2 ∧ accuracy r = of_nat 100.
Proof. vm_compute. repeat split; reflexivity. Qed.

(** One substituted letter out of five gives the score 0.8, a correct match;
    three out of five give 0.4, a missed word whose spoken token is extra. *)
Example binary64_near_miss :
  let r := compare_default (JN := Binary64) ascii_toLowerCase
             (js "kopek abcde") (js "kopex abxyz") in
  wr_status <$> wordResults r = [correct; missed] ∧
  wr_similarity <$> wordResults r
  = [nsub (of_nat 1) (ndiv (of_nat 1) (of_nat 5)); of_nat 0] ∧
  extraCount r = 1 ∧ accuracy r = of_nat 50.
Proof. vm_compute. repeat split; reflexivity. Qed.

(** * Further properties *)

(** ** normalize and tokenize *)

(** ** split and join *)

Lemma split_nonempty sep s : split sep s ≠ [].
Proof.
  destruct s as [|c s]; simpl; [done|].
  destruct (c =? sep)%N; [done|]. by destruct (split sep s).
Qed.

Lemma join_cons sep w ws : ws ≠ [] → join sep (w :: ws) = w ++ sep :: join sep ws.
Proof. by destruct ws. Qed.

Lemma join_split sep s : join sep (split sep s) = s.
Proof.
  induction s as [|c s IH]; simpl; [done|].
  destruct (N.eqb_spec c sep) as [->|Hne].
  - rewrite join_cons by apply split_nonempty. simpl. by rewrite IH.
  - pose proof (split_nonempty sep s) as Hs.
    destruct (split sep s) as [|w ws]; [done|].
    destruct ws as [|w' ws]; simpl in *; [by rewrite IH|].
    by rewrite <- IH.
Qed.

Lemma split_no_sep sep s : Forall (λ w, sep ∉ w) (split sep s).
Proof.
  induction s as [|c s IH]; simpl.
  - constructor; [|done]. by intros ?%elem_of_nil.
  - destruct (N.eqb_spec c sep) as [->|Hne].
    + constructor; [|done]. by intros ?%elem_of_nil.
    + pose proof (split_nonempty sep s) as Hs.
      destruct (split sep s) as [|w ws]; [done|].
      inversion IH as [|? ? Hw Hws]; subst. constructor; [|done].
      intros [?|?]%elem_of_cons; [congruence|done].
Qed.

Lemma split_Forall (P : N → Prop) sep s :
  Forall P s → Forall (Forall P) (split sep s).
Proof.
  induction 1 as [|c s Hc Hs IH]; simpl; [by repeat constructor|].
  destruct (c =? sep)%N; [by constructor|].
  destruct (split sep s) as [|w ws]; [by repeat constructor|].
  inversion IH; subst. constructor; [by constructor|done].
Qed.

Lemma split_join sep ws :
  ws ≠ [] → Forall (λ w, sep ∉ w) ws → split sep (join sep ws) = ws.
Proof.
  induction ws as [|w ws IH]; [done|]. intros _ Hall.
  inversion Hall as [|? ? Hw Hws]; subst.
  destruct (decide (ws = [])) as [->|Hne].
  - simpl. clear IH Hall Hws. induction w as [|c w IHw]; [done|]. simpl.
    apply not_elem_of_cons in Hw as [Hc Hw].
    destruct (N.eqb_spec c sep) as [->|_]; [done|]. by rewrite IHw.
  - rewrite join_cons by done. specialize (IH Hne Hws).
    clear Hall. induction w as [|c w IHw]; simpl.
    + rewrite N.eqb_refl. by rewrite IH.
    + apply not_elem_of_cons in Hw as [Hc Hw].
      destruct (N.eqb_spec c sep) as [->|_]; [done|]. by rewrite IHw.
Qed.

(** The pieces of a single-spaced string are not empty. *)
Lemma split_single_spaced p s :
  single_spaced p s = true →
  match split SPACE s with
  | w :: ws => (p = true → w ≠ []) ∧ Forall (λ w, w ≠ []) ws
  | [] => False
  end.
Proof.
  revert p. induction s as [|c s IH]; intros p; simpl.
  - intros Hp%negb_true_iff. split; [congruence|done].
  - destruct (c =? SPACE)%N.
    + intros [Hp%negb_true_iff Hs]%andb_true_iff. specialize (IH true Hs).
      destruct (split SPACE s) as [|w ws]; [done|]. destruct IH as [Hw Hws].
      split; [congruence|]. constructor; [by apply Hw|done].
    + intros Hs. specialize (IH false Hs).
      destruct (split SPACE s) as [|w ws]; [done|]. destruct IH as [_ Hws].
      by split.
Qed.

(** ** The steps of normalize *)

Lemma replace_whitespace_runs_spaced p s :
  no_double_space p (replace_whitespace_runs p s) = true.
Proof.
  revert p. induction s as [|c s IH]; intros p; simpl; [done|].
  destruct (is_whitespace c) eqn:Hc.
  - destruct p; [apply IH|]. simpl. apply IH.
  - simpl. destruct (N.eqb_spec c SPACE) as [->|_]; [done|]. apply IH.
Qed.

(** After the replacement the only whitespace left is the space. *)
Lemma replace_whitespace_runs_only_space p s :
  Forall (λ c, is_whitespace c = true → c = SPACE) (replace_whitespace_runs p s).
Proof.
  revert p. induction s as [|c s IH]; intros p; simpl; [done|].
  destruct (is_whitespace c) eqn:Hc.
  - destruct p; [apply IH|]. constructor; [done|apply IH].
  - constructor; [congruence|apply IH].
Qed.

Lemma replace_whitespace_runs_Forall (P : N → Prop) p s :
  P SPACE → Forall P s → Forall P (replace_whitespace_runs p s).
Proof.
  intros HP Hs. revert p. induction Hs as [|c s Hc Hs IH]; intros p; simpl; [done|].
  destruct (is_whitespace c); [destruct p|]; try constructor; auto.
Qed.

(** [trim_start] drops a prefix of whitespace and stops at the first other
    code unit. *)
Lemma trim_start_spec s :
  ∃ t, s = t ++ trim_start s ∧ Forall (λ c, is_whitespace c = true) t ∧
       match trim_start s with
       | c :: _ => is_whitespace c = false
       | [] => True
       end.
Proof.
  induction s as [|c s IH]; simpl; [by exists []|].
  destruct (is_whitespace c) eqn:Hc.
  - destruct IH as (t & Hs & Ht & Hh). exists (c :: t).
    split; [simpl; by rewrite <- Hs|]. split; [by constructor|done].
  - by exists [].
Qed.

(** [trim] keeps the middle of the string: what it drops on both sides is
    whitespace, and what it keeps neither starts nor ends with whitespace. *)
Lemma trim_spec s :
  ∃ t1 t2, s = t1 ++ trim s ++ t2 ∧
           Forall (λ c, is_whitespace c = true) t1 ∧
           Forall (λ c, is_whitespace c = true) t2 ∧
           match trim s with
           | c :: _ => is_whitespace c = false
           | [] => True
           end ∧
           match last (trim s) with
           | Some c => is_whitespace c = false
           | None => True
           end.
Proof.
  unfold trim.
  destruct (trim_start_spec s) as (t1 & Hs & Ht1 & Hh1).
  destruct (trim_start_spec (reverse (trim_start s))) as (t2 & Hr & Ht2 & Hh2).
  set (u := trim_start (reverse (trim_start s))) in *.
  assert (Hmid : trim_start s = reverse u ++ reverse t2).
  { rewrite <- reverse_app, <- Hr. by rewrite reverse_involutive. }
  exists t1, (reverse t2). split; [by rewrite <- Hmid|].
  split; [done|]. split; [by apply Forall_reverse|].
  split.
  - destruct (reverse u) as [|c r] eqn:Hru; [done|].
    rewrite Hmid in Hh1. done.
  - rewrite last_reverse. by destruct u.
Qed.

Lemma no_double_space_app_r p t s :
  no_double_space p (t ++ s) = true → ∃ q, no_double_space q s = true.
Proof.
  revert p. induction t as [|c t IH]; intros p; simpl; [by exists p|].
  destruct (c =? SPACE)%N; [intros [_ H]%andb_true_iff|intros H]; by eapply IH.
Qed.

Lemma single_spaced_middle p s t :
  no_double_space p (s ++ t) = true → s ≠ [] →
  match last s with Some c => c ≠ SPACE | None => True end →
  single_spaced p s = true.
Proof.
  revert p. induction s as [|c s IH]; intros p Hnd Hne Hlast; [done|].
  simpl in *. destruct (decide (s = [])) as [->|Hs].
  - simpl in *. destruct (N.eqb_spec c SPACE) as [->|_]; done.
  - assert (Hl : match last s with Some c => c ≠ SPACE | None => True end).
    { destruct s as [|c' s]; [done|]. done. }
    destruct (c =? SPACE)%N.
    + apply andb_true_iff in Hnd as [-> Hnd]. simpl. by apply IH.
    + by apply IH.
Qed.

Lemma single_spaced_start q s :
  no_double_space q s = true →
  match s with c :: _ => c ≠ SPACE | [] => True end →
  no_double_space true s = true.
Proof.
  destruct s as [|c s]; [done|]. simpl. intros Hnd Hc.
  by destruct (N.eqb_spec c SPACE).
Qed.

Section NormalizeShape.
Variable toLowerCase : jsstring → jsstring.

(** The normalized text is empty or single-spaced. *)
Lemma normalize_single_spaced text :
  normalize toLowerCase text = [] ∨
  single_spaced true (normalize toLowerCase text) = true.
Proof.
  unfold normalize.
  set (r := replace_whitespace_runs false _).
  pose proof (replace_whitespace_runs_spaced false
                (filter (λ c, is_punctuation c = false) (toLowerCase text))) as Hnd.
  fold r in Hnd.
  destruct (trim_spec r) as (t1 & t2 & Hr & _ & _ & Hhead & Hlast).
  destruct (trim r) as [|c n] eqn:Hn; [by left|]. right.
  rewrite Hr in Hnd. apply no_double_space_app_r in Hnd as [q Hnd].
  apply (single_spaced_middle true _ t2); [|done|].
  - apply (single_spaced_start q); [done|].
    simpl. intros ->. done.
  - destruct (last (c :: n)) as [c'|]; [|done]. intros ->. done.
Qed.

Lemma normalize_units text :
  Forall (λ c, (is_whitespace c = true → c = SPACE) ∧ is_punctuation c = false)
         (normalize toLowerCase text).
Proof.
  unfold normalize.
  set (f := filter (λ c, is_punctuation c = false) (toLowerCase text)).
  assert (Hf : Forall (λ c, is_punctuation c = false) f).
  { apply Forall_forall. by intros c [? _]%list_elem_of_filter. }
  assert (Hr : Forall (λ c, (is_whitespace c = true → c = SPACE) ∧ is_punctuation c = false)
                      (replace_whitespace_runs false f)).
  { apply Forall_and. split; [apply replace_whitespace_runs_only_space|].
    by apply replace_whitespace_runs_Forall. }
  destruct (trim_spec (replace_whitespace_runs false f)) as (t1 & t2 & Heq & _).
  rewrite Heq in Hr. by apply Forall_app in Hr as [_ [Hr _]%Forall_app].
Qed.

(** [tokenize] keeps every piece of the split, unless the normalized text is
    empty. *)
Lemma tokenize_split text :
  normalize toLowerCase text ≠ [] →
  tokenize toLowerCase text = split SPACE (normalize toLowerCase text).
Proof.
  intros Hne. unfold tokenize.
  destruct (normalize_single_spaced text) as [|Hs]; [done|].
  apply split_single_spaced in Hs.
  destruct (split SPACE (normalize toLowerCase text)) as [|w ws]; [done|].
  destruct Hs as [Hw Hws]. specialize (Hw eq_refl).
  assert (Hall : Forall (λ w, 0 < length w) (w :: ws)).
  { constructor; [destruct w; [done|simpl; lia]|].
    eapply Forall_impl; [exact Hws|]. intros [|? ?] ?; [done|simpl; lia]. }
  clear Hw Hws. induction Hall as [|x l Hx Hl IH]; [done|].
  rewrite filter_cons_True by done. by rewrite IH.
Qed.

Lemma tokenize_empty text :
  normalize toLowerCase text = [] → tokenize toLowerCase text = [].
Proof. intros Hn. unfold tokenize. by rewrite Hn. Qed.
End NormalizeShape.

(** X1. Every token that [tokenize] returns is non-empty and consists of
    code units that are neither whitespace nor punctuation, whatever the case
    mapping does. *)
Theorem tokenize_tokens_clean (toLowerCase : jsstring → jsstring) (text : jsstring) :
  Forall (λ w, w ≠ [] ∧ Forall word_unit w) (tokenize toLowerCase text).
Proof.
  destruct (decide (normalize toLowerCase text = [])) as [Hn|Hn].
  { by rewrite tokenize_empty. }
  assert (Hne : Forall (λ w, w ≠ []) (tokenize toLowerCase text)).
  { apply Forall_forall. intros w Hw. by eapply tokenize_nonempty. }
  rewrite tokenize_split in * by done.
  pose proof (split_no_sep SPACE (normalize toLowerCase text)) as Hsep.
  pose proof (split_Forall _ SPACE _ (normalize_units toLowerCase text)) as Hunits.
  apply Forall_forall. intros w Hw.
  rewrite Forall_forall in Hne, Hsep, Hunits.
  split; [by apply Hne|].
  apply Forall_forall. intros c Hc.
  pose proof (Hunits w Hw) as Hu. rewrite Forall_forall in Hu.
  destruct (Hu c Hc) as [Hws Hp]. split; [|done].
  destruct (is_whitespace c) eqn:Hwc; [|done].
  rewrite Hws in Hc by done. by destruct (Hsep w Hw).
Qed.

(** X2. The normalized text is its tokens joined by single spaces: it has no
    punctuation, no whitespace other than single spaces between tokens, and
    neither starts nor ends with a space. *)
Theorem normalize_join_tokens (toLowerCase : jsstring → jsstring) (text : jsstring) :
  normalize toLowerCase text = join SPACE (tokenize toLowerCase text).
Proof.
  destruct (decide (normalize toLowerCase text = [])) as [Hn|Hn].
  - by rewrite tokenize_empty, Hn.
  - by rewrite tokenize_split, join_split.
Qed.

(** ** Tokenizing a joined token sequence *)

Lemma replace_whitespace_runs_id p s :
  Forall (λ c, is_whitespace c = true → c = SPACE) s →
  no_double_space p s = true → replace_whitespace_runs p s = s.
Proof.
  intros Hs. revert p. induction Hs as [|c s Hc Hs IH]; intros p; simpl; [done|].
  destruct (is_whitespace c) eqn:Hw.
  - rewrite (Hc eq_refl). simpl. intros [->%negb_true_iff Hnd]%andb_true_iff.
    by rewrite IH.
  - destruct (N.eqb_spec c SPACE) as [->|_]; [done|]. intros Hnd. by rewrite IH.
Qed.

Lemma single_spaced_no_double p s :
  single_spaced p s = true → no_double_space p s = true.
Proof.
  revert p. induction s as [|c s IH]; intros p; simpl; [done|].
  destruct (c =? SPACE)%N; [|apply IH].
  intros [-> H]%andb_true_iff. simpl. by apply IH.
Qed.

Lemma single_spaced_last p s c :
  single_spaced p s = true → last s = Some c → c ≠ SPACE.
Proof.
  revert p. induction s as [|c' s IH]; intros p; [done|]. simpl.
  destruct s as [|c'' s].
  - simpl. destruct (N.eqb_spec c' SPACE) as [->|Hne]; [by rewrite andb_false_r|].
    by intros _ [= <-].
  - destruct (c' =? SPACE)%N; [intros [_ H]%andb_true_iff|intros H]; by eapply IH.
Qed.

Lemma single_spaced_app p w s :
  w ≠ [] → SPACE ∉ w → single_spaced true s = true →
  single_spaced p (w ++ SPACE :: s) = true.
Proof.
  intros Hne Hw Hs. revert p. induction w as [|c w IH]; intros p; [done|].
  apply not_elem_of_cons in Hw as [Hc Hw]. simpl.
  destruct (N.eqb_spec c SPACE) as [->|_]; [done|].
  destruct w as [|c' w]; [|by apply IH].
  simpl. exact Hs.
Qed.

Lemma single_spaced_word p w :
  w ≠ [] → SPACE ∉ w → single_spaced p w = true.
Proof.
  intros Hne Hw. revert p. induction w as [|c w IH]; intros p; [done|].
  apply not_elem_of_cons in Hw as [Hc Hw]. simpl.
  destruct (N.eqb_spec c SPACE) as [->|_]; [done|].
  destruct w as [|c' w]; [done|]. by apply IH.
Qed.

Lemma join_single_spaced ws :
  ws ≠ [] → Forall (λ w, w ≠ [] ∧ SPACE ∉ w) ws →
  single_spaced true (join SPACE ws) = true.
Proof.
  induction ws as [|w ws IH]; [done|]. intros _ Hall.
  inversion Hall as [|? ? [Hne Hw] Hws]; subst.
  destruct (decide (ws = [])) as [->|Hn].
  - simpl. by apply single_spaced_word.
  - rewrite join_cons by done. apply single_spaced_app; [done..|]. by apply IH.
Qed.

Lemma join_Forall (P : N → Prop) ws :
  P SPACE → Forall (Forall P) ws → Forall P (join SPACE ws).
Proof.
  intros HP. induction 1 as [|w ws Hw Hws IH]; [done|].
  destruct (decide (ws = [])) as [->|Hn]; [done|].
  rewrite join_cons by done. apply Forall_app. split; [done|]. by constructor.
Qed.

Lemma filter_no_punctuation s :
  Forall (λ c, is_punctuation c = false) s →
  filter (λ c, is_punctuation c = false) s = s.
Proof.
  induction 1 as [|c s Hc Hs IH]; [done|].
  rewrite filter_cons_True by done. by rewrite IH.
Qed.

(** [trim] leaves a string alone that neither starts nor ends with
    whitespace. *)
Lemma trim_id s :
  match s with c :: _ => is_whitespace c = false | [] => True end →
  match last s with Some c => is_whitespace c = false | None => True end →
  trim s = s.
Proof.
  intros Hhead Hlast.
  destruct (trim_spec s) as (t1 & t2 & Hs & Ht1 & Ht2 & _).
  assert (H1 : t1 = []).
  { destruct t1 as [|c t1]; [done|]. rewrite Hs in Hhead. simpl in Hhead.
    inversion Ht1; congruence. }
  assert (H2 : t2 = []).
  { destruct t2 as [|c t2 _] using rev_ind; [done|].
    rewrite Hs, !app_assoc, last_snoc in Hlast.
    apply Forall_app in Ht2 as [_ Hc]. inversion Hc; congruence. }
  subst. simpl in Hs. by rewrite app_nil_r in Hs.
Qed.

(** A text that the case mapping leaves alone, without punctuation, whose
    only whitespace is single spaces between words, is its own normal form. *)
Lemma normalize_fixed (toLowerCase : jsstring → jsstring) (s : jsstring) :
  toLowerCase s = s →
  Forall (λ c, (is_whitespace c = true → c = SPACE) ∧ is_punctuation c = false) s →
  s = [] ∨ single_spaced true s = true →
  normalize toLowerCase s = s.
Proof.
  intros Hlow Hunits [->|Hss].
  { unfold normalize. by rewrite Hlow. }
  unfold normalize. rewrite Hlow.
  rewrite filter_no_punctuation
    by (eapply Forall_impl; [exact Hunits|]; by intros c [_ ?]).
  rewrite replace_whitespace_runs_id.
  - apply trim_id.
    + destruct s as [|c s']; [done|].
      inversion Hunits as [|? ? [Hc _] _]; subst.
      destruct (is_whitespace c) eqn:Hw; [|done].
      rewrite (Hc eq_refl) in Hss. done.
    + destruct (last s) as [c|] eqn:Hl; [|done].
      pose proof (single_spaced_last _ _ _ Hss Hl) as Hc.
      destruct (is_whitespace c) eqn:Hw; [|done].
      rewrite Forall_forall in Hunits.
      destruct (Hunits c) as [Hsp _]; [|by destruct Hc; apply Hsp].
      apply last_Some in Hl as [l' ->]. apply elem_of_app. right. by left.
  - eapply Forall_impl; [exact Hunits|]. by intros c [? _].
  - apply single_spaced_no_double in Hss.
    destruct s as [|c s']; [done|]. simpl in *.
    destruct (c =? SPACE)%N; [done|done].
Qed.

(** X3. A sequence of non-empty words without whitespace or punctuation,
    joined by single spaces, is tokenized back into that sequence, provided
    the case mapping leaves the joined text unchanged. *)
Theorem tokenize_join (toLowerCase : jsstring → jsstring) (ws : list jsstring) :
  Forall (λ w, w ≠ [] ∧ Forall word_unit w) ws →
  toLowerCase (join SPACE ws) = join SPACE ws →
  tokenize toLowerCase (join SPACE ws) = ws.
Proof.
  intros Hws Hlow.
  destruct (decide (ws = [])) as [->|Hne].
  { unfold tokenize, normalize. simpl in *. by rewrite Hlow. }
  assert (Hsep : Forall (λ w, w ≠ [] ∧ SPACE ∉ w) ws).
  { eapply Forall_impl; [exact Hws|]. intros w [Hw Hu]. split; [done|].
    intros Hin. rewrite Forall_forall in Hu. by destruct (Hu _ Hin). }
  assert (Hunits : Forall (λ c, (is_whitespace c = true → c = SPACE)
                                ∧ is_punctuation c = false) (join SPACE ws)).
  { apply join_Forall; [done|]. eapply Forall_impl; [exact Hws|].
    intros w [_ Hu]. eapply Forall_impl; [exact Hu|].
    intros c [Hw Hp]. split; [congruence|done]. }
  pose proof (join_single_spaced ws Hne Hsep) as Hss.
  assert (Hnorm : normalize toLowerCase (join SPACE ws) = join SPACE ws)
    by (apply normalize_fixed; [done|done|by right]).
  assert (Hn : normalize toLowerCase (join SPACE ws) ≠ []).
  { rewrite Hnorm. intros Hj. by rewrite Hj in Hss. }
  rewrite tokenize_split, Hnorm by done.
  apply split_join; [done|]. eapply Forall_impl; [exact Hsep|]. by intros w [_ ?].
Qed.

Lemma tokenize_join_witness :
  tokenize ascii_toLowerCase (join SPACE [js "kedi"; js "kopek"])
  = [js "kedi"; js "kopek"].
Proof.
  apply (tokenize_join ascii_toLowerCase [js "kedi"; js "kopek"]).
  - repeat constructor; done.
  - reflexivity.
Defined.

(** X4. Normalizing is idempotent, and a text and its normal form have the
    same tokens, whenever the case mapping leaves the normal form
    unchanged. *)
Theorem normalize_idempotent (toLowerCase : jsstring → jsstring) (text : jsstring) :
  toLowerCase (normalize toLowerCase text) = normalize toLowerCase text →
  normalize toLowerCase (normalize toLowerCase text) = normalize toLowerCase text ∧
  tokenize toLowerCase (normalize toLowerCase text) = tokenize toLowerCase text.
Proof.
  intros Hlow.
  assert (Hn : normalize toLowerCase (normalize toLowerCase text)
               = normalize toLowerCase text).
  { apply normalize_fixed; [done|apply normalize_units|apply normalize_single_spaced]. }
  split; [exact Hn|]. unfold tokenize. by rewrite Hn.
Qed.

Lemma normalize_idempotent_witness :
  normalize ascii_toLowerCase (normalize ascii_toLowerCase (js "  Kedi,   Kopek! "))
  = normalize ascii_toLowerCase (js "  Kedi,   Kopek! ").
Proof.
  apply (normalize_idempotent ascii_toLowerCase (js "  Kedi,   Kopek! ")).
  reflexivity.
Defined.

(** ** The edit distance as a metric *)

Lemma editDistance_sym (a b : jsstring) (i j : nat) :
  editDistance a b i j = editDistance b a j i.
Proof.
  revert j. induction i as [|i IHi]; intros j.
  - by rewrite editDistance_0_r.
  - induction j as [|j IHj]; [done|].
    rewrite !editDistance_S, <- !IHi, IHj.
    assert (Hc : bool_decide (a !! i = b !! j) = bool_decide (b !! j = a !! i))
      by (apply bool_decide_ext; split; congruence).
    rewrite Hc. unfold Math_min3. lia.
Qed.

(** The distance is at least the difference of the lengths. *)
Lemma editDistance_lower (a b : jsstring) (i j : nat) :
  i ≤ editDistance a b i j + j ∧ j ≤ editDistance a b i j + i.
Proof.
  revert j. induction i as [|i IHi]; intros j; [simpl; lia|].
  induction j as [|j IHj]; [rewrite editDistance_0_r; lia|].
  rewrite editDistance_S. unfold Math_min3.
  pose proof (IHi j). pose proof (IHi (S j)).
  destruct (bool_decide _); lia.
Qed.

Lemma editDistance_zero (a b : jsstring) (i j : nat) :
  editDistance a b i j = 0 → i = j ∧ ∀ k, k < i → a !! k = b !! k.
Proof.
  revert j. induction i as [|i IHi]; intros j.
  - simpl. intros ->. split; [done|]. intros; lia.
  - destruct j as [|j]; [by rewrite editDistance_0_r|].
    rewrite editDistance_S. unfold Math_min3. intros H0.
    case_bool_decide as Hc; [|lia].
    destruct (IHi j) as [-> Hk]; [lia|]. split; [done|].
    intros k Hlt. destruct (decide (k = j)) as [->|]; [done|]. apply Hk. lia.
Qed.

Lemma editDistance_triangle (a b c : jsstring) (i j k : nat) :
  editDistance a c i k ≤ editDistance a b i j + editDistance b c j k.
Proof.
  remember (i + j + k) as n eqn:Hn. revert i j k Hn.
  induction n as [n IH] using lt_wf_ind. intros i j k ->.
  destruct i as [|i].
  { simpl. pose proof (editDistance_lower b c j k). lia. }
  destruct k as [|k].
  { rewrite !editDistance_0_r. pose proof (editDistance_lower a b (S i) j). lia. }
  destruct j as [|j].
  { rewrite editDistance_0_r. simpl (editDistance b c 0 (S k)).
    pose proof (editDistance_le_max a c (S i) (S k)). lia. }
  pose proof (IH (i + S j + S k) ltac:(lia) i (S j) (S k) eq_refl) as H1.
  pose proof (IH (S i + S j + k) ltac:(lia) (S i) (S j) k eq_refl) as H2.
  pose proof (IH (S i + j + S k) ltac:(lia) (S i) j (S k) eq_refl) as H3.
  pose proof (IH (S i + j + k) ltac:(lia) (S i) j k eq_refl) as H4.
  pose proof (IH (i + j + S k) ltac:(lia) i j (S k) eq_refl) as H5.
  pose proof (IH (i + j + k) ltac:(lia) i j k eq_refl) as H6.
  clear IH.
  rewrite (editDistance_S a b i j), (editDistance_S b c j k),
    (editDistance_S a c i k) in *.
  assert (Hc : (if bool_decide (a !! i = c !! k) then 0 else 1)
               ≤ (if bool_decide (a !! i = b !! j) then 0 else 1)
                 + (if bool_decide (b !! j = c !! k) then 0 else 1)).
  { repeat case_bool_decide; try lia. congruence. }
  unfold Math_min3 in *. lia.
Qed.

Lemma editDistance_zero_eq (a b : jsstring) :
  editDistance a b (length a) (length b) = 0 → a = b.
Proof.
  intros [Hlen Hk]%editDistance_zero. apply list_eq. intros k.
  destruct (decide (k < length a)) as [Hlt|Hge]; [by apply Hk|].
  rewrite !lookup_ge_None_2; [done|lia..].
Qed.

(** The common prefix costs nothing. *)
Lemma editDistance_prefix (a s : jsstring) (i : nat) :
  i ≤ length a → editDistance a (a ++ s) i i = 0.
Proof.
  induction i as [|i IH]; intros Hi; [done|].
  rewrite editDistance_match; [apply IH; lia|].
  by rewrite lookup_app_l by lia.
Qed.

Lemma editDistance_insert (a b : jsstring) (i j k : nat) :
  editDistance a b i (j + k) ≤ editDistance a b i j + k.
Proof.
  induction k as [|k IH]; [rewrite Nat.add_0_r; lia|].
  rewrite Nat.add_succ_r. pose proof (editDistance_step_r a b i (j + k)). lia.
Qed.

(** X5. The edit distance is symmetric. *)
Theorem levenshteinDistance_sym (a b : jsstring) :
  levenshteinDistance a b = levenshteinDistance b a.
Proof. rewrite !levenshteinDistance_editDistance. apply editDistance_sym. Qed.

(** X6. The edit distance of two strings is 0 exactly when they are equal. *)
Theorem levenshteinDistance_zero (a b : jsstring) :
  levenshteinDistance a b = 0 ↔ a = b.
Proof.
  rewrite levenshteinDistance_editDistance. split.
  - apply editDistance_zero_eq.
  - intros <-. apply editDistance_same.
Qed.

(** X7. The edit distance satisfies the triangle inequality. *)
Theorem levenshteinDistance_triangle (a b c : jsstring) :
  levenshteinDistance a c ≤ levenshteinDistance a b + levenshteinDistance b c.
Proof. rewrite !levenshteinDistance_editDistance. apply editDistance_triangle. Qed.

(** X8. The edit distance lies between the difference of the two lengths and
    the larger length. *)
Theorem levenshteinDistance_bounds (a b : jsstring) :
  Nat.max (length a) (length b) - Nat.min (length a) (length b)
  ≤ levenshteinDistance a b ≤ Nat.max (length a) (length b).
Proof.
  rewrite levenshteinDistance_editDistance.
  pose proof (editDistance_lower a b (length a) (length b)).
  pose proof (editDistance_le_max a b (length a) (length b)). lia.
Qed.

(** X9. Appending characters to a string costs exactly their number. *)
Theorem levenshteinDistance_append (a s : jsstring) :
  levenshteinDistance a (a ++ s) = length s.
Proof.
  rewrite levenshteinDistance_editDistance, length_app.
  pose proof (editDistance_lower a (a ++ s) (length a) (length a + length s)).
  pose proof (editDistance_insert a (a ++ s) (length a) (length a) (length s)).
  rewrite editDistance_prefix in * by done. lia.
Qed.

(** ** similarity *)

(** X10. [similarity] is symmetric, for every Number instance. *)
Theorem similarity_sym {num : Type} {JN : JSNumber num} (a b : jsstring) :
  similarity a b = similarity b a.
Proof.
  unfold similarity.
  rewrite !levenshteinDistance_editDistance, (editDistance_sym a b).
  by rewrite (Nat.max_comm (length a)).
Qed.


(** ** Edge cases of compare *)

Section EmptySpoken.
Context {num : Type} {JN : JSNumber num}.
Variable toLowerCase : jsstring -> jsstring.

(** With no spoken token both scans are empty and the running best stays at
    its initial value. *)
Lemma find_best_nil (used : gset Z) (i : nat) (w : jsstring) :
  find_best (num := num) [] used i w = mkBest None (of_nat 0) (-1).
Proof.
  unfold find_best, exact_match_anywhere, window_search, searchEnd. simpl.
  by destruct (nlt _ _).
Qed.

Lemma empty_spoken_loop original spokenText thr k :
  tokenize toLowerCase spokenText = [] →
  k ≤ length (tokenize toLowerCase original) →
  let st := compare_loop toLowerCase original spokenText thr k in
  usedSpokenIndices st = ∅ ∧
  wordResults (results st)
  = (λ w, mkWordResult w [] missed (of_nat 0)) <$> take k (tokenize toLowerCase original) ∧
  correctCount (results st) = 0 ∧ incorrectCount (results st) = 0.
Proof.
  intros Hs. induction k as [|k IH]; intros Hk; [done|].
  destruct IH as (Hused & Hrec & Hc & Hi); [lia|].
  destruct (lookup_lt_is_Some_2 (tokenize toLowerCase original) k) as [w Hw]; [lia|].
  pose proof (compare_loop_inv toLowerCase original spokenText thr k) as Hinv.
  destruct Hinv as [Ho Hsp _ _ _ _ _ _ _ _ _]; [lia|].
  cbv zeta. rewrite compare_loop_S.
  rewrite (compare_body_eq thr _ k w) by (by rewrite Ho).
  rewrite classify_eq. cbn [usedSpokenIndices results wordResults correctCount incorrectCount].
  rewrite Hsp, Hs, find_best_nil, Hused, Hrec, Hc, Hi.
  rewrite (take_S_r _ _ _ Hw), fmap_app. done.
Qed.
End EmptySpoken.

Lemma exact_round_zero (n : nat) :
  Math_round (JSNumber := Exact)
    (nmul (ndiv (of_nat 0) (of_nat n)) (of_nat 100)) = of_nat 0.
Proof.
  change (Qround_half_up (inject_Z 0 / inject_Z (Z.of_nat n) * inject_Z 100)
          = inject_Z 0).
  unfold Qround_half_up. f_equal.
  assert (Heq : (inject_Z 0 / inject_Z (Z.of_nat n) * inject_Z 100 + (1 # 2)
                 == 1 # 2)%Q).
  { unfold Qdiv. change (inject_Z 0) with 0%Q. ring. }
  by rewrite (Qfloor_comp _ _ Heq).
Qed.

(** X12. When the spoken text has no token, every reference token is
    missed: each record has status [missed], an empty spoken field and
    similarity 0, no token is counted correct or incorrect, no spoken token
    is extra, and in exact arithmetic the accuracy is 0. *)
Theorem compare_empty_spoken (toLowerCase : jsstring -> jsstring)
    (originalText spokenText : jsstring) :
  tokenize toLowerCase spokenText = [] →
  (∀ (num : Type) (JN : JSNumber num) (correctThreshold : num),
     let r := compare toLowerCase originalText spokenText correctThreshold in
     wordResults r
     = (λ w, mkWordResult w [] missed (of_nat 0)) <$> tokenize toLowerCase originalText ∧
     correctCount r = 0 ∧ incorrectCount r = 0 ∧
     missedCount r = length (tokenize toLowerCase originalText) ∧
     extraCount r = 0) ∧
  (∀ correctThreshold : Q,
     accuracy (compare (JN := Exact) toLowerCase originalText spokenText
                 correctThreshold) = 0%Q).
Proof.
  intros Hs. split.
  - intros num JN thr r.
    destruct (compare_fields toLowerCase originalText spokenText thr)
      as (Hinv & _ & _ & Hw & Hc & Hi & Hm & He & _).
    fold r in Hw, Hc, Hi, Hm, He.
    destruct (empty_spoken_loop toLowerCase originalText spokenText thr
                (length (tokenize toLowerCase originalText)) Hs (Nat.le_refl _))
      as (Hused & Hrec & Hc0 & Hi0).
    destruct Hinv as [_ _ _ Hsum _ _ _ _ _ _ _].
    rewrite firstn_all in Hrec.
    rewrite Hw, Hc, Hi, Hm, He, Hrec, Hc0, Hi0, Hused, Hs.
    repeat split; try done. lia.
  - intros thr.
    destruct (compare_fields (JN := Exact) toLowerCase originalText spokenText thr)
      as (_ & _ & _ & _ & Hc & _ & _ & _ & Ha).
    destruct (empty_spoken_loop (JN := Exact) toLowerCase originalText spokenText thr
                (length (tokenize toLowerCase originalText)) Hs (Nat.le_refl _))
      as (_ & _ & Hc0 & _).
    rewrite Ha, Hc, Hc0.
    destruct (Nat.ltb 0 _); [apply exact_round_zero|done].
Qed.

Lemma compare_empty_spoken_witness :
  tokenize ascii_toLowerCase (js " . ") = [] ∧
  accuracy (compare (JN := Exact) ascii_toLowerCase (js "kedi kopek") (js " . ")
              (7 # 10)%Q) = 0%Q.
Proof.
  split; [reflexivity|].
  apply (compare_empty_spoken ascii_toLowerCase (js "kedi kopek") (js " . ")).
  reflexivity.
Defined.

(** ** Records of compare, in exact arithmetic *)

Section Records.
Context {num : Type} {JN : JSNumber num}.
Variable toLowerCase : jsstring -> jsstring.


End Records.







(** ** Reading the whole reference, then more *)

Section Prefix.
Local Open Scope Q_scope.


Variable toLowerCase : jsstring -> jsstring.
Variables (original spokenText : jsstring) (ext : list jsstring) (thr : Q).
Hypothesis Hspoken :
  tokenize toLowerCase spokenText = tokenize toLowerCase original ++ ext.
Hypothesis Hthr : thr <= 1.

End Prefix.



(** ** Texts that differ in case, punctuation or spacing *)

Lemma tokenize_normalize (toLowerCase : jsstring → jsstring) (text : jsstring) :
  toLowerCase (normalize toLowerCase text) = normalize toLowerCase text →
  tokenize toLowerCase (normalize toLowerCase text) = tokenize toLowerCase text.
Proof.
  intros Hlow. unfold tokenize. f_equal. f_equal.
  apply normalize_fixed; [done|apply normalize_units|apply normalize_single_spaced].
Qed.

(** X24. [compare] sees its two texts through their tokens only: replacing
    each text by its normal form (lower case, no punctuation, single spaces)
    gives the same result object, for every Number instance and threshold,
    whenever the case mapping leaves the two normal forms unchanged. *)
Theorem compare_normalized {num : Type} {JN : JSNumber num}
    (toLowerCase : jsstring → jsstring) (originalText spokenText : jsstring)
    (correctThreshold : num) :
  toLowerCase (normalize toLowerCase originalText) = normalize toLowerCase originalText →
  toLowerCase (normalize toLowerCase spokenText) = normalize toLowerCase spokenText →
  compare toLowerCase (normalize toLowerCase originalText)
    (normalize toLowerCase spokenText) correctThreshold
  = compare toLowerCase originalText spokenText correctThreshold.
Proof.
  intros Ho Hs. unfold compare, compare_loop, compare_init.
  by rewrite (tokenize_normalize _ _ Ho), (tokenize_normalize _ _ Hs).
Qed.

Lemma compare_normalized_witness :
  compare (JN := Binary64) ascii_toLowerCase
    (normalize ascii_toLowerCase (js "Kedi,  kopek!"))
    (normalize ascii_toLowerCase (js " KEDI kopex ")) lit_0_70
  = compare (JN := Binary64) ascii_toLowerCase (js "Kedi,  kopek!")
      (js " KEDI kopex ") lit_0_70.
Proof.
  apply (compare_normalized (JN := Binary64) ascii_toLowerCase (js "Kedi,  kopek!")
           (js " KEDI kopex ") lit_0_70); reflexivity.
Defined.

(** ** SpeechRecognitionPractice *)

Lemma onresult_fold (l : list SpeechRecognitionResult) (acc : jsstring * jsstring) :
  foldl onresult_body acc l
  = (acc.1 ++ concat (sr_transcript <$> filter (λ r, isFinal r = false) l),
     acc.2 ++ concat ((λ r, sr_transcript r ++ [SPACE])
                        <$> filter (λ r, isFinal r = true) l)).
Proof.
  revert acc. induction l as [|r l IH]; intros [a b]; simpl.
  - by rewrite !app_nil_r.
  - rewrite IH. unfold onresult_body. rewrite !filter_cons.
    destruct (isFinal r); simpl; by rewrite <- ?app_assoc.
Qed.

Lemma onresult_fields (p : SpeechRecognitionPractice) (event : SpeechRecognitionEvent) :
  let p' := (onresult p event).1 in
  transcript p' = transcript p ++ final_text event ∧
  interimTranscript p' = interim_text event ∧
  recognition p' = recognition p ∧ isRecording p' = isRecording p ∧
  onResultCallback p' = onResultCallback p ∧
  onErrorCallback p' = onErrorCallback p ∧ onEndCallback p' = onEndCallback p.
Proof.
  unfold onresult. cbn [fst transcript interimTranscript recognition isRecording
    onResultCallback onErrorCallback onEndCallback].
  rewrite onresult_fold. cbn [fst snd app]. fold (final_text event) (interim_text event).
  repeat split; try done.
  case_bool_decide as Hf; [done|].
  by rewrite Hf, app_nil_r.
Qed.

(** X17. One [result] event appends to the transcript the final results
    from [resultIndex] on, in order, each followed by a space; the interim
    transcript is replaced by the concatenation of the results that are not
    final; the callback, if there is one, receives the trimmed transcript,
    the interim transcript, and the trimmed concatenation of the two. *)
Theorem onresult_transcript (p : SpeechRecognitionPractice)
    (event : SpeechRecognitionEvent) :
  let p' := (onresult p event).1 in
  transcript p' = transcript p ++ final_text event ∧
  interimTranscript p' = interim_text event ∧
  (onresult p event).2
  = match onResultCallback p with
    | Some f =>
        [result_callback f
           (mkResultUpdate (trim (transcript p ++ final_text event))
              (interim_text event)
              (trim ((transcript p ++ final_text event) ++ interim_text event)))]
    | None => []
    end.
Proof.
  intros p'.
  destruct (onresult_fields p event) as (Ht & Hi & _ & _ & Hcb & _).
  fold p' in Ht, Hi, Hcb. split; [done|]. split; [done|].
  change ((onresult p event).2) with
    (match onResultCallback p' with
     | Some f =>
         [result_callback f
            (mkResultUpdate (trim (transcript p')) (interimTranscript p')
               (trim (transcript p' ++ interimTranscript p')))]
     | None => []
     end).
  by rewrite Hcb, Ht, Hi.
Qed.

Lemma step_transcript (p : SpeechRecognitionPractice) (c : Call) :
  recognition p = true → restarts c = false →
  recognition (step p c).1 = true ∧
  transcript (step p c).1
  = transcript p ++ match c with fire_onresult event => final_text event | _ => [] end.
Proof.
  intros Hr Hc.
  destruct c as [[|]| | | | | | |]; try done;
    unfold step, start, stop, requestMicrophonePermission, onerror, onend;
    rewrite ?Hr; cbn -[onresult]; rewrite ?app_nil_r; try done.
  - by destruct (isRecording p).
  - destruct (onresult_fields p event) as (Ht & _ & Hr' & _). by rewrite Hr'.
Qed.

Lemma run_cons pe c cs :
  run pe (c :: cs) = run ((step pe.1 c).1, pe.2 ++ (step pe.1 c).2) cs.
Proof. unfold run. simpl. by destruct (step pe.1 c). Qed.

Lemma run_transcript (cs : list Call) (pe : SpeechRecognitionPractice * list Effect) :
  recognition pe.1 = true → Forall (λ c, restarts c = false) cs →
  recognition (run pe cs).1 = true ∧
  transcript (run pe cs).1 = transcript pe.1 ++ spoken_text cs.
Proof.
  revert pe. induction cs as [|c cs IH]; intros pe Hr Hcs.
  - unfold spoken_text. simpl. by rewrite app_nil_r.
  - apply Forall_cons in Hcs as [Hc Hcs].
    destruct (step_transcript pe.1 c Hr Hc) as [Hr' Ht].
    rewrite run_cons.
    destruct (IH ((step pe.1 c).1, pe.2 ++ (step pe.1 c).2) Hr' Hcs) as [Hr'' Ht'].
    split; [done|]. rewrite Ht'. cbn [fst]. rewrite Ht.
    unfold spoken_text. cbn [fmap list_fmap concat]. by rewrite app_assoc.
Qed.

(** X18. A recording session: after a granted [start] on an initialised
    object and any sequence of calls and events without another granted
    [start], [stop] returns the trimmed concatenation of the final results
    of all the [result] events, in order; an interim result never enters it,
    and neither [stop], an error, the end of the recognition nor a refused
    [start] erases it. *)
Theorem session_transcript (p : SpeechRecognitionPractice) (cs : list Call) :
  recognition p = true →
  Forall (λ c, restarts c = false) cs →
  let started := (start p true).1.2 in
  let p' := (run (started, []) cs).1 in
  transcript p' = spoken_text cs ∧ (stop p').1.1 = trim (spoken_text cs).
Proof.
  intros Hr Hcs started p'.
  assert (Hs : recognition started = true ∧ transcript started = []).
  { unfold started, start. rewrite Hr. done. }
  destruct Hs as [Hrs Hts].
  destruct (run_transcript cs (started, []) Hrs Hcs) as [_ Ht].
  fold p' in Ht. cbn [fst] in Ht. rewrite Hts in Ht. simpl in Ht.
  split; [done|].
  unfold stop. destruct (recognition p' && isRecording p'); simpl; by rewrite Ht.
Qed.

Lemma session_transcript_witness :
  (stop (run ((start (constructor true).1 true).1.2, [])
           [fire_onresult (mkSpeechRecognitionEvent 0
              [mkSpeechRecognitionResult (js "bir") true;
               mkSpeechRecognitionResult (js "ik") false]);
            call_start false;
            fire_onresult (mkSpeechRecognitionEvent 1
              [mkSpeechRecognitionResult (js "bir") true;
               mkSpeechRecognitionResult (js "iki") true]);
            fire_onend]).1).1.1
  = js "bir iki".
Proof.
  refine (proj2 (session_transcript (constructor true).1 _ eq_refl _)).
  repeat constructor.
Defined.

Lemma calls_app (x : Effect) (l1 l2 : list Effect) :
  calls x (l1 ++ l2) = calls x l1 + calls x l2.
Proof. unfold calls. by rewrite filter_app, length_app. Qed.

(** The handlers call the console and the callbacks, never the recogniser. *)
Lemma onresult_calls (p : SpeechRecognitionPractice) (event : SpeechRecognitionEvent) :
  calls recognition_start (onresult p event).2 = 0 ∧
  calls recognition_stop (onresult p event).2 = 0.
Proof. unfold onresult. cbn [snd onResultCallback]. by destruct (onResultCallback p). Qed.

Lemma onerror_calls (p : SpeechRecognitionPractice) (error : jsstring) :
  calls recognition_start (onerror p error).2 = 0 ∧
  calls recognition_stop (onerror p error).2 = 0.
Proof. unfold onerror. cbn [snd]. by destruct (onErrorCallback p). Qed.

Lemma onend_calls (p : SpeechRecognitionPractice) :
  calls recognition_start (onend p).2 = 0 ∧ calls recognition_stop (onend p).2 = 0.
Proof. unfold onend. cbn [snd onEndCallback]. by destruct (onEndCallback p). Qed.

(** One call keeps the recogniser field, and stops the recogniser only when
    the object was recording. *)
Lemma step_balance (p : SpeechRecognitionPractice) (c : Call) :
  recognition (step p c).1 = recognition p ∧
  (recognition p = false → isRecording p = false →
   isRecording (step p c).1 = false ∧ transcript (step p c).1 = transcript p ∧
   calls recognition_start (step p c).2 = 0 ∧
   calls recognition_stop (step p c).2 = 0) ∧
  calls recognition_stop (step p c).2 + (if isRecording (step p c).1 then 1 else 0)
  ≤ calls recognition_start (step p c).2 + (if isRecording p then 1 else 0).
Proof.
  destruct c as [[|]| |cb|cb|cb|event|error|]; unfold step.
  - destruct p as [[|] [|] t c1 c2 c3 it]; cbn;
      repeat split; try done; try (vm_compute; lia).
  - destruct p as [[|] [|] t c1 c2 c3 it]; cbn;
      repeat split; try done; try (vm_compute; lia).
  - destruct p as [[|] [|] t c1 c2 c3 it]; cbn;
      repeat split; try done; try (vm_compute; lia).
  - cbn. repeat split; try done.
  - cbn. repeat split; try done.
  - cbn. repeat split; try done.
  - destruct (recognition p) eqn:Hr; [|cbn; rewrite ?Hr; repeat split; try done; lia].
    destruct (onresult_fields p event) as (_ & _ & Hr' & Hrec & _).
    destruct (onresult_calls p event) as [H1 H2].
    rewrite Hr', Hrec, H1, H2, Hr. repeat split; try done.
  - destruct (recognition p) eqn:Hr; [|cbn; rewrite ?Hr; repeat split; try done; lia].
    destruct (onerror_calls p error) as [H1 H2]. rewrite H1, H2.
    cbn. rewrite Hr. repeat split; try done.
  - destruct (recognition p) eqn:Hr; [|cbn; rewrite ?Hr; repeat split; try done; lia].
    destruct (onend_calls p) as [H1 H2]. rewrite H1, H2.
    cbn. rewrite Hr. repeat split; try done. destruct (isRecording p); lia.
Qed.

Lemma run_balance (cs : list Call) (pe : SpeechRecognitionPractice * list Effect) :
  recognition (run pe cs).1 = recognition pe.1 ∧
  (recognition pe.1 = false → isRecording pe.1 = false →
   isRecording (run pe cs).1 = false ∧ transcript (run pe cs).1 = transcript pe.1 ∧
   calls recognition_start (run pe cs).2 = calls recognition_start pe.2 ∧
   calls recognition_stop (run pe cs).2 = calls recognition_stop pe.2) ∧
  (calls recognition_stop pe.2 + (if isRecording pe.1 then 1 else 0)
   ≤ calls recognition_start pe.2 →
   calls recognition_stop (run pe cs).2 + (if isRecording (run pe cs).1 then 1 else 0)
   ≤ calls recognition_start (run pe cs).2).
Proof.
  revert pe. induction cs as [|c cs IH]; intros pe; [done|].
  rewrite run_cons.
  destruct (step_balance pe.1 c) as (Hr & Hoff & Hbal).
  destruct (IH ((step pe.1 c).1, pe.2 ++ (step pe.1 c).2)) as (Hr' & Hoff' & Hbal').
  cbn [fst snd] in Hr', Hoff', Hbal'. rewrite !calls_app in Hoff', Hbal'.
  split; [by rewrite Hr', Hr|]. split.
  - intros H1 H2. destruct (Hoff H1 H2) as (Hrec & Ht & Hs1 & Hs2).
    destruct Hoff' as (? & ? & ? & ?); [by rewrite Hr|done|].
    repeat split; [done|congruence|lia|lia].
  - intros Hle. apply Hbal'. lia.
Qed.

(** X19. Whatever is called and whatever the recogniser fires, from the
    construction of the object on: [recognition.stop()] has been called at
    most as often as [recognition.start()], with one call of [start] still
    open while the object is recording; and when the browser has no speech
    recognition, the object never records, never calls the recogniser and
    keeps an empty transcript. *)
Theorem recogniser_calls_balanced (supported : bool) (cs : list Call) :
  let pe := run (constructor supported) cs in
  calls recognition_stop pe.2 + (if isRecording pe.1 then 1 else 0)
  ≤ calls recognition_start pe.2 ∧
  recognition pe.1 = supported ∧
  (supported = false →
   isRecording pe.1 = false ∧ transcript pe.1 = [] ∧
   calls recognition_start pe.2 = 0 ∧ calls recognition_stop pe.2 = 0).
Proof.
  intros pe.
  destruct (run_balance cs (constructor supported)) as (Hr & Hoff & Hbal).
  fold pe in Hr, Hoff, Hbal.
  split; [apply Hbal; by destruct supported|].
  split; [rewrite Hr; by destruct supported|].
  intros ->. destruct Hoff as (? & ? & ? & ?); done.
Qed.

(** X20. A second [stop] changes nothing: it returns the same transcript,
    leaves every field as the first one left it and does not call
    [recognition.stop()] again. *)
Theorem stop_idempotent (p : SpeechRecognitionPractice) :
  stop (stop p).1.2 = ((stop p).1.1, (stop p).1.2, []).
Proof.
  unfold stop. destruct (recognition p && isRecording p) eqn:Hc; cbn.
  - by rewrite andb_false_r.
  - by rewrite Hc.
Qed.

(** ** SearchUtils.setupSearch *)

(** X21. The search listener never passes an empty string: an input value
    of whitespace only (or no character at all) is passed as [null], and any
    other value is passed without its leading and trailing whitespace, which
    leaves a non-empty string that neither starts nor ends with
    whitespace. *)
Theorem setupSearch_value_trimmed (value : jsstring) :
  (setupSearch_value value = None ↔ Forall (λ c, is_whitespace c = true) value) ∧
  (∀ v, setupSearch_value value = Some v →
        v ≠ [] ∧
        (∃ t1 t2, value = t1 ++ v ++ t2 ∧
                  Forall (λ c, is_whitespace c = true) t1 ∧
                  Forall (λ c, is_whitespace c = true) t2) ∧
        (∀ c, head v = Some c → is_whitespace c = false) ∧
        (∀ c, last v = Some c → is_whitespace c = false)).
Proof.
  unfold setupSearch_value.
  destruct (trim_spec value) as (t1 & t2 & Hv & Ht1 & Ht2 & Hhead & Hlast).
  split.
  - case_bool_decide as He; split; try done.
    + intros _. rewrite Hv, He. apply Forall_app. split; [done|]. done.
    + intros Hall. exfalso.
      destruct (trim value) as [|c s] eqn:Htrim; [done|].
      rewrite Hv in Hall. apply Forall_app in Hall as [_ Hall].
      inversion Hall; congruence.
  - intros v Hsome. case_bool_decide as He; [done|]. injection Hsome as <-.
    split; [done|]. split; [by exists t1, t2|]. split.
    + intros c Hc. destruct (trim value) as [|c' s]; [done|]. simpl in Hc. congruence.
    + intros c Hc. rewrite Hc in Hlast. done.
Qed.

(** ** SearchUtils.debounce *)

Section DebounceCorrect.
Context {Args : Type}.
Implicit Types (es : list (DebounceEvent Args)) (st : Debounce Args * list Args).

Lemma debounce_snoc es e :
  debounce (es ++ [e]) = debounce_step (debounce es) e.
Proof. unfold debounce. by rewrite foldl_app. Qed.

Lemma called_with_snoc es e :
  called_with (es ++ [e])
  = called_with es ++ match e with called args => [args] | fired _ => [] end.
Proof.
  unfold called_with. rewrite omap_app. destruct e; simpl; [done|].
  by rewrite app_nil_r.
Qed.

Lemma debounce_step_inv es st e :
  debounce_inv es st → debounce_inv (es ++ [e]) (debounce_step st e).
Proof.
  intros Hinv. unfold debounce_inv. rewrite called_with_snoc.
  destruct e as [args|id]; cbn [debounce_step fst snd].
  - right. exists (timers_set st.1), args, (called_with es).
    unfold executedFunction. cbn [timeout timers].
    split; [done|]. split; [|split; [done|]].
    + destruct Hinv as [[Ht _]|(id & a & l & Hto & Ht & _)].
      * rewrite Ht. unfold clearTimeout. destruct (timeout st.1);
          by rewrite ?delete_empty, insert_empty.
      * rewrite Hto, Ht. cbn [clearTimeout].
        by rewrite delete_singleton_eq, insert_empty.
    + destruct Hinv as [[_ Hs]|(id & a & l & _ & _ & -> & Hs)]; [done|].
      by apply sublist_inserts_r.
  - rewrite app_nil_r. unfold later.
    destruct Hinv as [[Ht Hs]|(id' & a & l & Hto & Ht & Hc & Hs)].
    + left. rewrite Ht, lookup_empty. cbn [fst snd]. by rewrite app_nil_r.
    + rewrite Ht, Hc. destruct (decide (id = id')) as [->|Hne].
      * left. rewrite lookup_singleton_eq. cbn [fst snd timers timeout].
        rewrite Hto. cbn [clearTimeout].
        rewrite delete_singleton_eq, delete_empty. split; [done|].
        by apply sublist_app.
      * right. rewrite lookup_singleton_ne by done. cbn [fst snd].
        rewrite app_nil_r. by exists id', a, l.
Qed.

Lemma debounce_inv_run es : debounce_inv es (debounce es).
Proof.
  induction es as [|e es IH] using rev_ind.
  - left. done.
  - rewrite debounce_snoc. by apply debounce_step_inv.
Qed.
End DebounceCorrect.

(** X22. Whatever the order of calls and timer firings, a debounced
    function has at most one timer pending, the one that [timeout] names,
    and it holds the arguments of the latest call; [func] receives a
    subsequence of the argument lists of the calls, so no call is delivered
    twice and none out of order. *)
Theorem debounce_latest_call {Args : Type} (es : list (DebounceEvent Args)) :
  let d := (debounce es).1 in
  (∀ id args, timers d !! id = Some args →
     timeout d = Some id ∧ timers d = {[ id := args ]} ∧
     last (called_with es) = Some args) ∧
  (debounce es).2 `sublist_of` called_with es.
Proof.
  intros d. destruct (debounce_inv_run es) as [[Ht Hs]|(id & a & l & Hto & Ht & Hc & Hs)];
    fold d in Ht.
  - split; [|done]. intros id args. by rewrite Ht, lookup_empty.
  - fold d in Hto. split.
    + intros id' args. rewrite Ht. intros [-> ->]%lookup_singleton_Some.
      by rewrite Hc, last_snoc.
    + rewrite Hc. by apply sublist_inserts_r.
Qed.

(** X23. A burst of calls followed by the firing of the timer left pending
    calls [func] once, with the arguments of the last call of the burst. *)
Theorem debounce_burst {Args : Type} (burst : list Args) (args : Args) :
  let es := called <$> (burst ++ [args]) in
  ∃ id, timeout (debounce es).1 = Some id ∧
        (debounce (es ++ [fired id])).2 = [args] ∧
        timers (debounce (es ++ [fired id])).1 = ∅.
Proof.
  intros es.
  assert (Hout : (debounce es).2 = []).
  { unfold es. generalize (burst ++ [args]). intros l.
    induction l as [|a l IH] using rev_ind; [done|].
    rewrite fmap_app. change (called <$> [a]) with [called a].
    rewrite debounce_snoc. exact IH. }
  assert (Hpending : ∃ id, timeout (debounce es).1 = Some id ∧
                           timers (debounce es).1 = {[ id := args ]}).
  { unfold es. rewrite fmap_app. change (called <$> [args]) with [called args].
    rewrite debounce_snoc. cbn [debounce_step fst executedFunction timeout timers].
    eexists. split; [done|].
    destruct (debounce_inv_run (called <$> burst)) as [[Ht _]|(id & a & l & Hto & Ht & _)].
    - rewrite Ht. unfold clearTimeout. destruct (timeout _);
        by rewrite ?delete_empty, insert_empty.
    - rewrite Hto, Ht. cbn [clearTimeout].
      by rewrite delete_singleton_eq, insert_empty. }
  destruct Hpending as (id & Hto & Ht). exists id. split; [done|].
  rewrite debounce_snoc. cbn [debounce_step fst snd]. unfold later.
  rewrite Ht, lookup_singleton_eq. cbn [fst snd timers]. rewrite Hout, Hto.
  cbn [clearTimeout]. by rewrite delete_singleton_eq, delete_empty.
Qed.
